(** * Reactive signal patterns: a shallow embedding and its properties

    The TypeScript library builds reusable patterns on top of the host
    framework's [signal], [computed] and [effect].  Each pattern is
    embedded below in a module of its own: the closure variables of a
    [create...] function become the fields of a record, every exported
    operation becomes a function on that record, and everything that the
    event loop does later (an effect run, a timer callback, the
    continuation after an [await]) becomes an explicit event of a trace.

    Effects are the host's: an effect is scheduled when it is created
    and again when a signal it has read changes, and the scheduler runs
    it later (nothing is assumed about when, relative to timers and
    promises).  A record that owns an effect therefore
    carries a flag [effect_pending], and the run of the effect is an
    event.  The optional [injector] of the constructors only chooses the
    context in which the effect is created and is left out.

    The first part of the file holds the embedding, the second part the
    properties, module by module. *)

From Stdlib Require Import ZArith List Bool Ascii String Lia.
From stdpp Require Import base decidable option list strings pretty gmap.

Local Open Scope Z_scope.

(** ** The host runtime *)

Module Runtime.

(** Modelled from the spec: the writable cell of the host runtime
    ([signal] of the framework, [makeCell] in the specification).  A
    write whose value is equal to the current one is a no-op and
    notifies nobody; the boolean of the result says whether dependents
    were notified.  Equality is [Object.is]: on the value types used
    here it is decidable equality. *)
Definition signal_set {T} `{EqDecision T} (v cur : T) : T * bool :=
  if bool_decide (cur = v) then (cur, false) else (v, true).

(** Modelled from the spec: [updateWith] is a write of the function's
    result. *)
Definition signal_update {T} `{EqDecision T} (f : T -> T) (cur : T) : T * bool :=
  signal_set (f cur) cur.

(** What a call leaves behind for its caller: it returns normally or it
    throws. *)
Inductive completion (E A : Type) : Type :=
| Normal (a : A)
| Throw (e : E).
Arguments Normal {E A} a.
Arguments Throw {E A} e.

End Runtime.

(** ** Pattern: signal middleware ([createSignalWithMiddleware]) *)

Module Middleware.
Import Runtime.

Section WithValue.
Context {T : Type} `{EqDecision T}.

(** The closure of [createSignalWithMiddleware]: the inner signal and the
    middleware array it captured. *)
Record MiddlewareSignal : Type := {
  innerSignal : T;
  middleware : list (T -> T -> T)
}.

Definition createSignalWithMiddleware (initialValue : T)
    (mws : list (T -> T -> T)) : MiddlewareSignal :=
  {| innerSignal := initialValue; middleware := mws |}.

(** The [for (const fn of middleware)] loop of [wrapper.set]. *)
Fixpoint run_middleware (mws : list (T -> T -> T)) (processedValue prev : T) : T :=
  match mws with
  | [] => processedValue
  | fn :: rest => run_middleware rest (fn processedValue prev) prev
  end.

(** [wrapper.set]. *)
Definition wrapper_set (value : T) (w : MiddlewareSignal) : MiddlewareSignal :=
  let prev := innerSignal w in
  let processedValue := run_middleware (middleware w) value prev in
  {| innerSignal := fst (signal_set processedValue (innerSignal w));
     middleware := middleware w |}.

(** [wrapper.update]. *)
Definition wrapper_update (updateFn : T -> T) (w : MiddlewareSignal) : MiddlewareSignal :=
  wrapper_set (updateFn (innerSignal w)) w.

(** [validationMiddleware]; the [console.warn] of the rejecting branch
    writes to the console only. *)
Definition validationMiddleware (validator : T -> bool) : T -> T -> T :=
  fun value prev => if validator value then value else prev.

(** [loggingMiddleware] returns its input; the record it prints goes to
    the console only. *)
Definition loggingMiddleware : T -> T -> T := fun value _ => value.

(** The fold of the specification, [fm(... f2(f1(v, prev), prev) ..., prev)]. *)
Definition pipeline_fold (mws : list (T -> T -> T)) (v prev : T) : T :=
  fold_left (fun acc fn => fn acc prev) mws v.

(** The writes a client can make through the wrapper. *)
Inductive call : Type :=
| CallSet (value : T)
| CallUpdate (updateFn : T -> T).

Definition apply_call (w : MiddlewareSignal) (c : call) : MiddlewareSignal :=
  match c with
  | CallSet value => wrapper_set value w
  | CallUpdate updateFn => wrapper_update updateFn w
  end.

Definition apply_calls (cs : list call) (w : MiddlewareSignal) : MiddlewareSignal :=
  fold_left apply_call cs w.

End WithValue.
Arguments call T : clear implicits.

(** The validator of the demonstration: only non-negative numbers pass. *)
Definition nonNegative : Z -> Z -> Z := validationMiddleware (fun n => 0 <=? n).

End Middleware.

(** ** Pattern: signal history ([createHistorySignal]) *)

Module History.

Section WithValue.
Context {T : Type}.

(** The closure of [createHistorySignal].  [history] is always written
    with a freshly built array, so that write is never gated away. *)
Record HistorySignal : Type := {
  history : list T;
  currentIndex : nat;
  maxHistory : Z
}.

Definition createHistorySignal (initialValue : T) (maxHistory : Z) : HistorySignal :=
  {| history := [initialValue]; currentIndex := 0; maxHistory := maxHistory |}.

(** [computed(() => history()[currentIndex()])]; [None] is [undefined]. *)
Definition value (h : HistorySignal) : option T := history h !! currentIndex h.

Definition canUndo (h : HistorySignal) : bool := (0 <? currentIndex h)%nat.

Definition canRedo (h : HistorySignal) : bool :=
  Z.of_nat (currentIndex h) <? Z.of_nat (length (history h)) - 1.

Definition setValue (newValue : T) (h : HistorySignal) : HistorySignal :=
  (* history().slice(0, currentIndex() + 1), then push(newValue) *)
  let newHistory := take (currentIndex h + 1) (history h) ++ [newValue] in
  if maxHistory h <? Z.of_nat (length newHistory) then
    (* newHistory.shift(): the oldest entry goes, the index stays *)
    {| history := tail newHistory;
       currentIndex := currentIndex h;
       maxHistory := maxHistory h |}
  else
    {| history := newHistory;
       currentIndex := (currentIndex h + 1)%nat;
       maxHistory := maxHistory h |}.

Definition undo (h : HistorySignal) : HistorySignal :=
  if canUndo h then
    {| history := history h; currentIndex := (currentIndex h - 1)%nat;
       maxHistory := maxHistory h |}
  else h.

Definition redo (h : HistorySignal) : HistorySignal :=
  if canRedo h then
    {| history := history h; currentIndex := (currentIndex h + 1)%nat;
       maxHistory := maxHistory h |}
  else h.

(** Calls of [setValue] in a row, first value first. *)
Definition setValues (vs : list T) (h : HistorySignal) : HistorySignal :=
  fold_left (fun acc v => setValue v acc) vs h.

(** Without [undo], the index is at the last entry. *)
Definition at_end (h : HistorySignal) : Prop :=
  (currentIndex h + 1)%nat = length (history h).

(** The calls a client can make on a history signal. *)
Inductive call : Type :=
| SetValue (newValue : T)
| Undo
| Redo.

Definition apply_call (h : HistorySignal) (c : call) : HistorySignal :=
  match c with
  | SetValue newValue => setValue newValue h
  | Undo => undo h
  | Redo => redo h
  end.

Definition apply_calls (cs : list call) (h : HistorySignal) : HistorySignal :=
  fold_left apply_call cs h.

(** [undo()] called [m] times in a row. *)
Definition undos (m : nat) (h : HistorySignal) : HistorySignal :=
  Nat.iter m undo h.

(** The index points into the log. *)
Definition index_in_range (h : HistorySignal) : Prop :=
  (currentIndex h < length (history h))%nat.

End WithValue.
Arguments HistorySignal T : clear implicits.
Arguments call T : clear implicits.

End History.

(** ** Pattern: signal set ([createSignalSet]) *)

Module SignalSet.

Section WithItem.
Context {T : Type}.

(** The closure of [createSignalSet]: the array signal and the key
    function.  [items] is written with fresh arrays only. *)
Record SignalSet : Type := {
  items : list T;
  keyFn : T -> string
}.

(** The [initial] array is stored as it is given. *)
Definition createSignalSet (initial : list T) (keyFn : T -> string) : SignalSet :=
  {| items := initial; keyFn := keyFn |}.

Definition size (s : SignalSet) : nat := length (items s).

(** [items().some(i => keyFn(i) === key)] *)
Definition has (item : T) (s : SignalSet) : bool :=
  let key := keyFn s item in
  existsb (fun i => bool_decide (keyFn s i = key)) (items s).

Definition add (item : T) (s : SignalSet) : SignalSet :=
  if negb (has item s) then
    {| items := items s ++ [item]; keyFn := keyFn s |}
  else s.

(** [arr.filter(i => keyFn(i) !== key)] *)
Definition remove (item : T) (s : SignalSet) : SignalSet :=
  let key := keyFn s item in
  {| items := List.filter (fun i => negb (bool_decide (keyFn s i = key))) (items s);
     keyFn := keyFn s |}.

Definition toggle (item : T) (s : SignalSet) : SignalSet :=
  if has item s then remove item s else add item s.

Definition clear (s : SignalSet) : SignalSet :=
  {| items := []; keyFn := keyFn s |}.

(** The mutating calls a client can make. *)
Inductive call : Type :=
| Add (item : T)
| Remove (item : T)
| Toggle (item : T)
| Clear.

Definition apply_call (s : SignalSet) (c : call) : SignalSet :=
  match c with
  | Add item => add item s
  | Remove item => remove item s
  | Toggle item => toggle item s
  | Clear => clear s
  end.

Definition apply_calls (cs : list call) (s : SignalSet) : SignalSet :=
  fold_left apply_call cs s.

(** No two elements of the array have the same extracted key. *)
Definition unique_keys (s : SignalSet) : Prop := NoDup (map (keyFn s) (items s)).

End WithItem.
Arguments SignalSet T : clear implicits.
Arguments call T : clear implicits.

(** The default key function on strings, [String(item)]. *)
Definition String_ (item : string) : string := item.

End SignalSet.

(** ** Pattern: computed with previous value ([computedWithPrevious]) *)

Module ComputedWithPrevious.
Import Runtime.

Section WithTypes.
Context {T R E : Type} `{EqDecision T}.

(** The caller's compute function; it may throw. *)
Variable computeFn : T -> option T -> completion E R.

(** The source signal, the closure variable [previousValue] ([None] is
    [undefined]) and the derived cell that [computed] returns.

    Modelled from the spec: the derived cell of the host runtime, which
    the source does not contain.  It is lazy and memoized: [stale] is
    set at construction and whenever the source changes, and a read
    recomputes only then.  [memo] is the result of the last
    recomputation when that returned, [failure] the exception it threw
    otherwise: the framework caches either.

    [calls] is a history variable: the argument pairs [computeFn] was
    invoked with, oldest first. *)
Record Derived : Type := {
  source : T;
  previousValue : option T;
  memo : option R;
  failure : option E;
  stale : bool;
  calls : list (T * option T)
}.

Definition computedWithPrevious (sourceValue : T) : Derived :=
  {| source := sourceValue; previousValue := None; memo := None;
     failure := None; stale := true; calls := [] |}.

(** A write to the source signal. *)
Definition source_set (v : T) (d : Derived) : Derived :=
  let '(v', changed) := signal_set v (source d) in
  {| source := v'; previousValue := previousValue d; memo := memo d;
     failure := failure d;
     stale := stale d || changed; calls := calls d |}.

(** The function that [computedWithPrevious] hands to [computed]: it
    reads the source, calls [computeFn] and, when that has returned,
    stores the current value in [previousValue].  The result is the
    outcome and what [previousValue] holds afterwards. *)
Definition compute_body (d : Derived) : completion E R * option T :=
  let current := source d in
  match computeFn current (previousValue d) with
  | Normal result => (Normal result, Some current)
  | Throw e => (Throw e, previousValue d)
  end.

(** Modelled from the spec: one recomputation of the derived cell by the
    host runtime.  The host runs the function it was given, hands the
    outcome to the reader and marks the cell clean; it memoizes the
    result, or caches the exception when the function threw. *)
Definition recompute (d : Derived) : completion E R * Derived :=
  let '(outcome, previous) := compute_body d in
  (outcome,
   {| source := source d; previousValue := previous;
      memo := match outcome with Normal result => Some result | Throw _ => None end;
      failure := match outcome with Normal _ => None | Throw e => Some e end;
      stale := false;
      calls := calls d ++ [(source d, previousValue d)] |}).

(** Modelled from the spec: a read of the derived cell of the host
    runtime.  A stale cell is recomputed; a clean cell returns the
    memoized result, or rethrows the cached exception, without running
    the function. *)
Definition read (d : Derived) : completion E R * Derived :=
  if stale d then recompute d
  else match failure d with
       | Some e => (Throw e, d)
       | None =>
           match memo d with
           | Some r => (Normal r, d)
           | None => recompute d
           end
       end.


End WithTypes.
Arguments Derived T R E : clear implicits.

(** The delta of the demonstration, with a compute function that throws
    on a negative current value. *)
Definition delta (current : Z) (previous : option Z) : completion string Z :=
  if current <? 0 then Throw "negative"%string
  else match previous with
       | None => Normal 0
       | Some p => Normal (current - p)
       end.


End ComputedWithPrevious.

(** ** Pattern: persistent store ([createPersistentStore]) *)

Module PersistentStore.
Import Runtime.

(** The two exceptions of the JSON functions. *)
Inductive exn : Type := SyntaxError | TypeError.

(** The browser: whether there is a [window], and [localStorage]. *)
Record Browser : Type := {
  window : bool;
  localStorage : gmap string string
}.

(** [typeof window !== 'undefined' ? localStorage.getItem(key) : null] *)
Definition getItem (b : Browser) (key : string) : option string :=
  if window b then localStorage b !! key else None.

Section WithValue.
Context {T : Type} `{EqDecision T}.

(** [JSON.parse] and [JSON.stringify] at the type of the stored value;
    [None] is the exception they throw. *)
Variable JSON_parse : string -> option T.
Variable JSON_stringify : T -> option string.

(** The closure of [createPersistentStore].  [effect_pending] says that
    the saving effect is scheduled: effects run once after they are
    created and again after a signal they read has changed. *)
Record PersistentStore : Type := {
  key : string;
  initialValue : T;
  state : T;
  effect_pending : bool
}.

Definition createPersistentStore (key : string) (initialValue : T)
    (b : Browser) : completion exn PersistentStore :=
  let stored := getItem b key in
  let make initial :=
    {| key := key; initialValue := initialValue; state := initial;
       effect_pending := true |} in
  match stored with
  | Some s =>
      (* stored ? JSON.parse(stored) : initialValue; the empty string is falsy *)
      if bool_decide (s = ""%string) then Normal (make initialValue)
      else match JSON_parse s with
           | Some v => Normal (make v)
           | None => Throw SyntaxError
           end
  | None => Normal (make initialValue)
  end.

(** [set: (value) => state.set(value)] *)
Definition set (value : T) (p : PersistentStore) : completion exn PersistentStore :=
  let '(v, changed) := signal_set value (state p) in
  Normal {| key := key p; initialValue := initialValue p; state := v;
            effect_pending := effect_pending p || changed |}.

(** [update: (updater) => state.update(updater)] *)
Definition update (updater : T -> T) (p : PersistentStore) : completion exn PersistentStore :=
  set (updater (state p)) p.

(** [reset: () => state.set(initialValue)] *)
Definition reset (p : PersistentStore) : completion exn PersistentStore :=
  set (initialValue p) p.

(** One run of the saving effect by the scheduler, when it is pending:
    [localStorage.setItem(key, JSON.stringify(state()))].  An exception
    of the body is thrown into the scheduler's turn. *)
Definition run_effect (b : Browser) (p : PersistentStore)
    : completion exn unit * Browser * PersistentStore :=
  if effect_pending p then
    let p' := {| key := key p; initialValue := initialValue p; state := state p;
                 effect_pending := false |} in
    if window b then
      match JSON_stringify (state p) with
      | Some s =>
          (Normal tt,
           {| window := window b; localStorage := <[key p := s]> (localStorage b) |},
           p')
      | None => (Throw TypeError, b, p')
      end
    else (Normal tt, b, p')
  else (Normal tt, b, p).

(** What can happen to a store in a browser: the client calls [set],
    [update] or [reset], or the scheduler runs the saving effect. *)
Inductive call : Type :=
| CallSet (value : T)
| CallUpdate (updater : T -> T)
| CallReset
| EffectRun.

Definition after (c : completion exn PersistentStore) (p : PersistentStore)
    : PersistentStore :=
  match c with
  | Normal p' => p'
  | Throw _ => p
  end.

Definition apply_call (w : Browser * PersistentStore) (c : call)
    : Browser * PersistentStore :=
  let '(b, p) := w in
  match c with
  | CallSet value => (b, after (set value p) p)
  | CallUpdate updater => (b, after (update updater p) p)
  | CallReset => (b, after (reset p) p)
  | EffectRun => let '(_, b', p') := run_effect b p in (b', p')
  end.

Definition apply_calls (cs : list call) (w : Browser * PersistentStore)
    : Browser * PersistentStore :=
  fold_left apply_call cs w.

(** When no save is pending and the state serializes, the record under
    the key is the serialized state. *)
Definition in_sync (w : Browser * PersistentStore) : Prop :=
  let '(b, p) := w in
  effect_pending p = false -> window b = true ->
  forall s, JSON_stringify (state p) = Some s -> localStorage b !! key p = Some s.

End WithValue.
Arguments PersistentStore T : clear implicits.
Arguments call T : clear implicits.

(** *** JSON on scalar values *)

(** Scalar JavaScript values: [null], booleans, integral numbers and
    BigInts. *)
Inductive jsval : Type :=
| VNull
| VBool (b : bool)
| VNum (n : Z)
| VBigInt (n : Z).

#[global] Instance jsval_eq_dec : EqDecision jsval.
Proof. solve_decision. Defined.

(** [JSON.stringify] on these scalars; on a BigInt it throws a
    [TypeError]. *)
Definition JSON_stringify (v : jsval) : option string :=
  match v with
  | VNull => Some "null"%string
  | VBool true => Some "true"%string
  | VBool false => Some "false"%string
  | VNum n => Some (pretty n)
  | VBigInt _ => None
  end.

Definition is_ws (c : ascii) : bool :=
  let n := Ascii.N_of_ascii c in
  ((n =? 32) || (n =? 9) || (n =? 10) || (n =? 13))%N.

Fixpoint trim_start (s : string) : string :=
  match s with
  | String c r => if is_ws c then trim_start r else s
  | EmptyString => EmptyString
  end.

Fixpoint trim_end (s : string) : string :=
  match s with
  | String c r =>
      let r' := trim_end r in
      if is_ws c && bool_decide (r' = EmptyString) then EmptyString else String c r'
  | EmptyString => EmptyString
  end.

Fixpoint digits (s : string) (acc : N) : option N :=
  match s with
  | EmptyString => Some acc
  | String c r =>
      let n := Ascii.N_of_ascii c in
      if ((48 <=? n) && (n <=? 57))%N then digits r (10 * acc + (n - 48))%N else None
  end.

(** A JSON integer: digits, no leading zero. *)
Definition natural (s : string) : option N :=
  match s with
  | EmptyString => None
  | String "0" EmptyString => Some 0%N
  | String "0" _ => None
  | _ => digits s 0
  end.

(** [JSON.parse] on the texts of these scalars: optional white space
    around [null], [true], [false] or an integer literal.  [None] is the
    [SyntaxError]; texts of strings, arrays, objects and fractions are
    not values of [jsval] and are outside this instance. *)
Definition JSON_parse (s : string) : option jsval :=
  let t := trim_end (trim_start s) in
  if bool_decide (t = "null"%string) then Some VNull
  else if bool_decide (t = "true"%string) then Some (VBool true)
  else if bool_decide (t = "false"%string) then Some (VBool false)
  else match t with
       | String "-" r => (fun n => VNum (- Z.of_N n)) <$> natural r
       | _ => (fun n => VNum (Z.of_N n)) <$> natural t
       end.

(** A browser whose record under ["prefs"] is not JSON. *)
Definition malformed_browser : Browser :=
  {| window := true; localStorage := {[ "prefs"%string := "{oops"%string ]} |}.

(** A store of the counter, created in a browser without a record and
    saved by the first run of its effect. *)
Definition fresh_browser : Browser := {| window := true; localStorage := ∅ |}.

Definition counter_store : PersistentStore jsval :=
  {| key := "counter"; initialValue := VNum 0; state := VNum 0;
     effect_pending := false |}.

Definition counter_browser : Browser :=
  {| window := true; localStorage := {[ "counter"%string := "0"%string ]} |}.

(** A browser in which other keys are in use, and the counter store
    constructed there with another default. *)
Definition shared_browser : Browser :=
  {| window := true;
     localStorage := {[ "counter"%string := "0"%string; "theme"%string := "true"%string ]} |}.

Definition loaded_store : PersistentStore jsval :=
  {| key := "counter"; initialValue := VNum 99; state := VNum 0;
     effect_pending := true |}.

End PersistentStore.

(** ** Pattern: resource ([createResource]) *)

Module Resource.

Section WithTypes.
Context {T E : Type}.

(** The closure of [createResource]: the three state signals and the
    trigger, together with what the event loop holds for it.
    [effect_pending] says that the loading effect is scheduled (effects
    run once after they are created and again after a signal they read
    has changed); [fetch_calls] counts the invocations of [fetchFn], and
    the n-th invocation is call n-1; [in_flight] lists the calls whose
    promise has not settled yet, oldest first. *)
Record Resource : Type := {
  data : option T;
  loading : bool;
  error : option E;
  refreshTrigger : nat;
  effect_pending : bool;
  fetch_calls : nat;
  in_flight : list nat
}.

Definition createResource : Resource :=
  {| data := None; loading := false; error := None; refreshTrigger := 0;
     effect_pending := true; fetch_calls := 0; in_flight := [] |}.

(** [refresh: () => refreshTrigger.update(v => v + 1)] *)
Definition refresh (r : Resource) : Resource :=
  {| data := data r; loading := loading r; error := error r;
     refreshTrigger := S (refreshTrigger r);
     effect_pending := true;
     fetch_calls := fetch_calls r; in_flight := in_flight r |}.

(** One run of the effect by the scheduler, up to its [await]:
    [loading.set(true); error.set(null); fetchFn()]. *)
Definition run_effect (r : Resource) : Resource :=
  if effect_pending r then
    {| data := data r; loading := true; error := None;
       refreshTrigger := refreshTrigger r;
       effect_pending := false;
       fetch_calls := S (fetch_calls r);
       in_flight := in_flight r ++ [fetch_calls r] |}
  else r.

(** The rest of a run, after the promise of [call] has settled: the
    [try] branch on a result, the [catch] branch on a rejection, then
    [finally]. *)
Definition settle (call : nat) (outcome : T + E) (r : Resource) : option Resource :=
  if bool_decide (call ∈ in_flight r) then
    Some {| data := match outcome with inl result => Some result | inr _ => data r end;
            loading := false;
            error := match outcome with inl _ => error r | inr e => Some e end;
            refreshTrigger := refreshTrigger r;
            effect_pending := effect_pending r;
            fetch_calls := fetch_calls r;
            in_flight := List.filter (fun c => negb (c =? call)%nat) (in_flight r) |}
  else None.

(** A signal that the producer read while it was invoked has changed.
    [fetchFn()] is called inside the effect, before its [await], so what
    it reads there is tracked like the trigger and a change schedules
    the effect again. *)
Definition dependency_changed (r : Resource) : Resource :=
  {| data := data r; loading := loading r; error := error r;
     refreshTrigger := refreshTrigger r;
     effect_pending := true;
     fetch_calls := fetch_calls r; in_flight := in_flight r |}.

(** What can happen to a resource: the client calls [refresh()], the
    scheduler runs the effect, the promise of a call settles, a signal
    the producer read changes. *)
Inductive event : Type :=
| Refresh
| RunEffect
| Settle (call : nat) (outcome : T + E)
| DependencyChanged.

Definition step (r : Resource) (ev : event) : option Resource :=
  match ev with
  | Refresh => Some (refresh r)
  | RunEffect => Some (run_effect r)
  | Settle call outcome => settle call outcome r
  | DependencyChanged => Some (dependency_changed r)
  end.

(** A trace of events from a state; [None] when an event cannot happen
    (a call that is not in flight settles). *)
Fixpoint run (tr : list event) (r : Resource) : option Resource :=
  match tr with
  | [] => Some r
  | ev :: rest =>
      match step r ev with
      | Some r' => run rest r'
      | None => None
      end
  end.

Definition is_refresh (ev : event) : bool :=
  match ev with Refresh => true | _ => false end.

Definition is_settle (ev : event) : bool :=
  match ev with Settle _ _ => true | _ => false end.

Definition is_run_effect (ev : event) : bool :=
  match ev with RunEffect => true | _ => false end.

(** While [loading] is set, [error] is null and the load started last is
    still in flight. *)
Definition loading_sound (r : Resource) : Prop :=
  loading r = true ->
  error r = None /\ (0 < fetch_calls r)%nat /\ (fetch_calls r - 1)%nat ∈ in_flight r.

(** The effect has run, or it is scheduled. *)
Definition effect_due (r : Resource) : Prop :=
  effect_pending r = true \/ (0 < fetch_calls r)%nat.

(** The number of [refresh()] calls in a trace. *)
Definition refreshes (tr : list event) : nat :=
  length (List.filter is_refresh tr).

(** The number of effect runs in a trace. *)
Definition effect_runs (tr : list event) : nat :=
  length (List.filter is_run_effect tr).

Definition is_dependency_change (ev : event) : bool :=
  match ev with DependencyChanged => true | _ => false end.

(** The number of changes of signals the producer read, in a trace. *)
Definition dependency_changes (tr : list event) : nat :=
  length (List.filter is_dependency_change tr).

End WithTypes.
Arguments Resource T E : clear implicits.
Arguments event T E : clear implicits.

(** Two loads in flight: the effect ran, [refresh()] was called, the
    effect ran again. *)
Definition two_in_flight : Resource Z string :=
  run_effect (refresh (run_effect createResource)).

End Resource.

(** ** Pattern: debounced signal ([createDebouncedSignal]) *)

Module Debounce.
Import Runtime.

Section WithValue.
Context {T : Type} `{EqDecision T}.

(** The closure of [createDebouncedSignal] together with what the event
    loop holds for it.  [timers] are the timeouts that are set and have
    neither fired nor been cleared, by id, each with its due time and the
    [value] its callback captured; ids are positive and never reused.
    [effect_pending] says that the effect is scheduled, [alive] that its
    owner has not been destroyed, [cleanup] that a run has registered
    the [onCleanup] callback.  [now] is the clock in milliseconds.
    [changes] is a history variable: when [output] changed and to what,
    oldest first. *)
Record Debounced : Type := {
  input : T;
  output : T;
  delayMs : Z;
  timeoutId : option nat;
  timers : gmap nat (Z * T);
  next_timer : nat;
  effect_pending : bool;
  cleanup : bool;
  alive : bool;
  now : Z;
  changes : list (Z * T)
}.

Definition createDebouncedSignal (initialValue : T) (delayMs : Z) (t0 : Z) : Debounced :=
  {| input := initialValue; output := initialValue; delayMs := delayMs;
     timeoutId := None; timers := ∅; next_timer := 1;
     effect_pending := true; cleanup := false; alive := true;
     now := t0; changes := [] |}.

(** [if (timeoutId) clearTimeout(timeoutId)] *)
Definition clear_pending (id : option nat) (tm : gmap nat (Z * T)) : gmap nat (Z * T) :=
  match id with
  | Some (S n) => delete (S n) tm
  | _ => tm
  end.

(** [input.set(v)] at time [t]. *)
Definition write (t : Z) (v : T) (s : Debounced) : Debounced :=
  let '(v', changed) := signal_set v (input s) in
  {| input := v'; output := output s; delayMs := delayMs s;
     timeoutId := timeoutId s; timers := timers s; next_timer := next_timer s;
     effect_pending := effect_pending s || (changed && alive s);
     cleanup := cleanup s; alive := alive s;
     now := t; changes := changes s |}.

(** One run of the effect by the scheduler at time [t]: the cleanup of
    the previous run, then the body.  A timeout with a negative delay is
    due at once. *)
Definition run_effect (t : Z) (s : Debounced) : Debounced :=
  if effect_pending s && alive s then
    let tm0 := if cleanup s then clear_pending (timeoutId s) (timers s) else timers s in
    let value := input s in
    let tm1 := clear_pending (timeoutId s) tm0 in
    let id := next_timer s in
    {| input := input s; output := output s; delayMs := delayMs s;
       timeoutId := Some id;
       timers := <[id := (t + Z.max 0 (delayMs s), value)]> tm1;
       next_timer := S id;
       effect_pending := false; cleanup := true; alive := true;
       now := t; changes := changes s |}
  else
    {| input := input s; output := output s; delayMs := delayMs s;
       timeoutId := timeoutId s; timers := timers s; next_timer := next_timer s;
       effect_pending := effect_pending s; cleanup := cleanup s; alive := alive s;
       now := t; changes := changes s |}.

(** The callback of timeout [id] at time [t]: [output.set(value)]. *)
Definition fire (t : Z) (id : nat) (value : T) (s : Debounced) : Debounced :=
  let '(v', changed) := signal_set value (output s) in
  {| input := input s; output := v'; delayMs := delayMs s;
     timeoutId := timeoutId s; timers := delete id (timers s);
     next_timer := next_timer s;
     effect_pending := effect_pending s; cleanup := cleanup s; alive := alive s;
     now := t;
     changes := if changed then changes s ++ [(t, v')] else changes s |}.

(** The owner is destroyed at time [t]: the registered cleanup runs and
    the effect never runs again. *)
Definition destroy (t : Z) (s : Debounced) : Debounced :=
  {| input := input s; output := output s; delayMs := delayMs s;
     timeoutId := timeoutId s;
     timers := if cleanup s && alive s then clear_pending (timeoutId s) (timers s)
               else timers s;
     next_timer := next_timer s;
     effect_pending := false; cleanup := cleanup s; alive := false;
     now := t; changes := changes s |}.

(** What can happen, each with the time at which it happens. *)
Inductive event : Type :=
| Write (t : Z) (v : T)
| RunEffect (t : Z)
| Fire (t : Z) (id : nat)
| Destroy (t : Z).

Definition time_of (ev : event) : Z :=
  match ev with
  | Write t _ | RunEffect t | Fire t _ | Destroy t => t
  end.

(** The event loop: time does not go back, and a timeout that is set
    fires no earlier than it is due.  Nothing orders a timeout and a
    scheduled effect run: either may come first. *)
Definition step (s : Debounced) (ev : event) : option Debounced :=
  if time_of ev <? now s then None
  else match ev with
       | Write t v => Some (write t v s)
       | RunEffect t => Some (run_effect t s)
       | Fire t id =>
           match timers s !! id with
           | Some (due, value) =>
               if due <=? t then Some (fire t id value s) else None
           | None => None
           end
       | Destroy t => Some (destroy t s)
       end.

Fixpoint run (tr : list event) (s : Debounced) : option Debounced :=
  match tr with
  | [] => Some s
  | ev :: rest =>
      match step s ev with
      | Some s' => run rest s'
      | None => None
      end
  end.

(** Along the trace, the scheduler runs a scheduled effect before any
    timeout fires: no timeout fires while an effect run is pending. *)
Fixpoint effects_first (tr : list event) (s : Debounced) : Prop :=
  match tr with
  | [] => True
  | ev :: rest =>
      match ev with
      | Fire _ _ => effect_pending s = false
      | _ => True
      end
      /\ match step s ev with
         | Some s' => effects_first rest s'
         | None => True
         end
  end.

(** The writes of a trace, with their times, oldest first. *)
Fixpoint writes_of (tr : list event) : list (Z * T) :=
  match tr with
  | [] => []
  | Write t v :: rest => (t, v) :: writes_of rest
  | _ :: rest => writes_of rest
  end.

(** The writes of a trace that change the input, which holds [cur]
    before the trace. *)
Fixpoint changing_writes (cur : T) (tr : list event) : list (Z * T) :=
  match tr with
  | [] => []
  | Write t v :: rest =>
      if bool_decide (cur = v) then changing_writes cur rest
      else (t, v) :: changing_writes v rest
  | _ :: rest => changing_writes cur rest
  end.

(** Consecutive writes are strictly less than [d] apart. *)
Fixpoint rapid (d : Z) (ws : list (Z * T)) : Prop :=
  match ws with
  | (t1, _) :: (((t2, _) :: _) as rest) => t2 - t1 < d /\ rapid d rest
  | _ => True
  end.

(** The output changes at most once, to the last written value, no
    earlier than [d] after the last write. *)
Definition settles_once (d : Z) (ws : list (Z * T)) (chs : list (Z * T)) : Prop :=
  chs = [] \/
  exists t v tl, chs = [(t, v)] /\ last ws = Some (tl, v) /\ tl + d <= t.

(** The last changing write after one more event, [cur] being the
    input before it. *)
Definition next_last (cur : T) (lastw : option (Z * T)) (ev : event) : option (Z * T) :=
  match ev with
  | Write t v => if bool_decide (cur = v) then lastw else Some (t, v)
  | _ => lastw
  end.

(** The changing writes so far end with [lastw]; those of the rest of
    the trace follow. *)
Definition writes_from (lastw : option (Z * T)) (ws : list (Z * T)) : list (Z * T) :=
  match lastw with
  | Some w => w :: ws
  | None => ws
  end.

(** What holds of every state that a trace of rapid writes reaches from
    creation with value [init] and delay [d], [lastw] being the last
    write so far that changed the input:
    - the input holds the value of that write, and the clock is past it;
    - a timeout that is set is the one [timeoutId] names, and once the
      effect has run it carries the input's value and is due no earlier
      than [d] after that write;
    - the output has not changed, or it has changed once, to the value of
      that write and no earlier than [d] after it. *)
Record Inv (init : T) (d : Z) (lastw : option (Z * T)) (s : Debounced) : Prop := {
  inv_delay : delayMs s = d;
  inv_input : input s = from_option snd init lastw;
  inv_now : forall tl vl, lastw = Some (tl, vl) -> tl <= now s;
  inv_next : (1 <= next_timer s)%nat;
  inv_timer : forall id due v,
    timers s !! id = Some (due, v) ->
    timeoutId s = Some id /\ (1 <= id)%nat /\ cleanup s = true /\ alive s = true
    /\ (effect_pending s = false ->
        v = input s /\ forall tl vl, lastw = Some (tl, vl) -> tl + d <= due);
  inv_changes :
    (changes s = [] /\ output s = init)
    \/ (exists t tl,
          changes s = [(t, output s)] /\ lastw = Some (tl, output s)
          /\ tl + d <= t /\ t <= now s /\ effect_pending s = false)
}.

(** What holds of every state reached from creation, whatever the
    writes: a timeout that is set is the one [timeoutId] names, it
    belongs to a live effect that has registered its cleanup, and once
    the effect has run it carries the input's value. *)
Record Owned (s : Debounced) : Prop := {
  own_next : (1 <= next_timer s)%nat;
  own_timer : forall id due v,
    timers s !! id = Some (due, v) ->
    timeoutId s = Some id /\ (1 <= id)%nat /\ cleanup s = true /\ alive s = true
    /\ (effect_pending s = false -> v = input s)
}.

(** After the owner is destroyed: no effect, no timeout. *)
Definition Dead (s : Debounced) : Prop :=
  alive s = false /\ effect_pending s = false /\ forall id, timers s !! id = None.

End WithValue.
Arguments Debounced T : clear implicits.
Arguments event T : clear implicits.

(** Typing "h", "he", "hel" into a search box debounced by 300 ms; the
    timeout set by the fourth effect run fires at 550. *)
Definition typing_trace : list (event string) :=
  [RunEffect 0; Write 10 "h"; RunEffect 10; Write 100 "he"; RunEffect 100;
   Write 250 "hel"; RunEffect 250; Fire 550 4]%string.

(** With a delay of 10 ms: "a" is written at 0 and again at 9, then the
    timeout of the first write fires at 10. *)
Definition repeated_write_trace : list (event string) :=
  [RunEffect 0; Write 0 "a"; RunEffect 0; Write 9 "a"; Fire 10 2]%string.

(** The same, followed by a write of "b" at 18 and its timeout. *)
Definition repeated_then_new_trace : list (event string) :=
  repeated_write_trace ++ [Write 18 "b"; RunEffect 18; Fire 28 3]%string.

(** With a delay of 10 ms: "a" is written at 0 and "b" at 9, and the
    timeout of the first write fires at 10, before the effect scheduled
    by the second write runs. *)
Definition overtaking_trace : list (event string) :=
  [RunEffect 0; Write 0 "a"; RunEffect 0; Write 9 "b"; Fire 10 2;
   RunEffect 10; Fire 20 3]%string.

(** One letter is typed into a search box debounced by 300 ms and the
    effect has run. *)
Definition one_letter_trace : list (event string) :=
  [RunEffect 0; Write 10 "h"; RunEffect 10]%string.

End Debounce.

(** ** Pattern: reactive form field ([createFormField]) *)

Module FormField.
Import Runtime.

Section WithValue.
Context {T : Type} `{EqDecision T}.

(** The closure of [createFormField]: the three writable signals, the
    initial value and the validators it captured, and the flag of the
    effect that marks the field dirty.  A validator returns [None] for
    [null] and [Some] message otherwise. *)
Record FormField : Type := {
  value : T;
  touched : bool;
  dirty : bool;
  initialValue : T;
  validators : list (T -> option string);
  effect_pending : bool
}.

Definition createFormField (initialValue : T)
    (validators : list (T -> option string)) : FormField :=
  {| value := initialValue; touched := false; dirty := false;
     initialValue := initialValue; validators := validators;
     effect_pending := true |}.

(** The loop of [errors]: [if (error) errs.push(error)]; the empty
    string is falsy like [null]. *)
Fixpoint run_validators (vs : list (T -> option string)) (val : T)
    (errs : list string) : list string :=
  match vs with
  | [] => errs
  | validator :: rest =>
      let errs' :=
        match validator val with
        | Some error => if bool_decide (error = ""%string) then errs else errs ++ [error]
        | None => errs
        end in
      run_validators rest val errs'
  end.

Definition errors (f : FormField) : list string :=
  run_validators (validators f) (value f) [].

(** [errors().length === 0] *)
Definition valid (f : FormField) : bool := (length (errors f) =? 0)%nat.

(** [value.set(v)]; the effect reads [value]. *)
Definition value_set (v : T) (f : FormField) : FormField :=
  let '(v', changed) := signal_set v (value f) in
  {| value := v'; touched := touched f; dirty := dirty f;
     initialValue := initialValue f; validators := validators f;
     effect_pending := effect_pending f || changed |}.

(** [touched.set(b)] *)
Definition touched_set (b : bool) (f : FormField) : FormField :=
  {| value := value f; touched := b; dirty := dirty f;
     initialValue := initialValue f; validators := validators f;
     effect_pending := effect_pending f |}.

(** One run of the effect by the scheduler, when it is pending:
    [if (value() !== initialValue) dirty.set(true)]. *)
Definition run_effect (f : FormField) : FormField :=
  if effect_pending f then
    {| value := value f; touched := touched f;
       dirty := if bool_decide (value f = initialValue f) then dirty f else true;
       initialValue := initialValue f; validators := validators f;
       effect_pending := false |}
  else f.

(** What happens to a field that only the form drives: the user edits
    the value or leaves the control, and the scheduler runs the effect.
    (A client can also write [dirty] itself; such writes are not part of
    these traces.) *)
Inductive call : Type :=
| ValueSet (v : T)
| TouchedSet (b : bool)
| EffectRun.

Definition apply_call (f : FormField) (c : call) : FormField :=
  match c with
  | ValueSet v => value_set v f
  | TouchedSet b => touched_set b f
  | EffectRun => run_effect f
  end.

Definition apply_calls (cs : list call) (f : FormField) : FormField :=
  fold_left apply_call cs f.

(** The message a validator contributes to [errors], if any. *)
Definition message (val : T) (validator : T -> option string) : option string :=
  match validator val with
  | Some error => if bool_decide (error = ""%string) then None else Some error
  | None => None
  end.

(** A validator lets the value pass: it returns [null] or the empty
    string. *)
Definition passes (val : T) (validator : T -> option string) : Prop :=
  validator val = None \/ validator val = Some ""%string.

(** Once the effect has run, a value other than the initial one has
    made the field dirty. *)
Definition dirty_sound (f : FormField) : Prop :=
  effect_pending f = false -> value f <> initialValue f -> dirty f = true.

End WithValue.
Arguments FormField T : clear implicits.
Arguments call T : clear implicits.

(** [requiredValidator] at the type of a text field, whose value is
    neither [null] nor [undefined]. *)
Definition requiredValidator (value : string) : option string :=
  if bool_decide (value = ""%string) then Some "This field is required"%string
  else None.

(** [minLengthValidator(min)] for an integral [min]; a string is taken
    as its sequence of code units, one per character. *)
Definition minLengthValidator (min : Z) (value : string) : option string :=
  if min <=? Z.of_nat (String.length value) then None
  else Some ("Minimum length is " +:+ pretty min)%string.

(** The password field of the demonstration component. *)
Definition passwordField : FormField string :=
  createFormField ""%string [requiredValidator; minLengthValidator 8].

End FormField.

(** ** Debugging: a signal that logs ([createDebugSignal]) *)

Module DebugSignal.
Import Runtime.

Section WithValue.
Context {T : Type} `{EqDecision T}.

(** A line written to the console by the proxy: a read with the value
    read, a [set] with the value given, the announcement of an [update],
    and its result with the values before and after. *)
Inductive entry : Type :=
| LogRead (value : T)
| LogSet (value : T)
| LogUpdateCalled
| LogUpdate (oldValue newValue : T).

(** The proxy of [createDebugSignal]: the name, the signal it wraps and
    the console, oldest line first. *)
Record DebugSignal : Type := {
  name : string;
  sig : T;
  console : list entry
}.

Definition createDebugSignal (name : string) (initialValue : T) : DebugSignal :=
  {| name := name; sig := initialValue; console := [] |}.

(** The [apply] trap: a read of the signal. *)
Definition read (d : DebugSignal) : T * DebugSignal :=
  let value := sig d in
  (value, {| name := name d; sig := sig d; console := console d ++ [LogRead value] |}).

(** The function the [get] trap returns for [set]. *)
Definition set (value : T) (d : DebugSignal) : DebugSignal :=
  {| name := name d;
     sig := fst (signal_set value (sig d));
     console := console d ++ [LogSet value] |}.

(** The function the [get] trap returns for [update]. *)
Definition update (fn : T -> T) (d : DebugSignal) : DebugSignal :=
  let oldValue := sig d in
  let newValue := fst (signal_update fn (sig d)) in
  {| name := name d;
     sig := newValue;
     console := (console d ++ [LogUpdateCalled]) ++ [LogUpdate oldValue newValue] |}.

(** The operations of a client. *)
Inductive call : Type :=
| Read
| CallSet (value : T)
| CallUpdate (fn : T -> T).

Definition apply_call (d : DebugSignal) (c : call) : DebugSignal :=
  match c with
  | Read => snd (read d)
  | CallSet value => set value d
  | CallUpdate fn => update fn d
  end.

Definition apply_calls (cs : list call) (d : DebugSignal) : DebugSignal :=
  fold_left apply_call cs d.

(** The same operations on a signal without the proxy. *)
Definition plain_call (cur : T) (c : call) : T :=
  match c with
  | Read => cur
  | CallSet value => fst (signal_set value cur)
  | CallUpdate fn => fst (signal_update fn cur)
  end.

(** The console lines an operation writes. *)
Definition lines (c : call) : nat :=
  match c with
  | Read | CallSet _ => 1
  | CallUpdate _ => 2
  end.

End WithValue.
Arguments DebugSignal T : clear implicits.
Arguments call T : clear implicits.
Arguments entry T : clear implicits.

End DebugSignal.

(** * Properties *)

(** ** The host runtime *)

Module RuntimeFacts.
Import Runtime.

Lemma signal_set_value {T} `{EqDecision T} (v cur : T) :
  fst (signal_set v cur) = v.
Proof. unfold signal_set. case_bool_decide; simpl; congruence. Qed.

Lemma signal_set_changed {T} `{EqDecision T} (v cur : T) :
  snd (signal_set v cur) = negb (bool_decide (cur = v)).
Proof. unfold signal_set. case_bool_decide; reflexivity. Qed.

End RuntimeFacts.

(** ** Signal middleware *)

Module MiddlewareFacts.
Import Runtime Middleware.

Lemma run_middleware_fold {T} (mws : list (T -> T -> T)) (v prev : T) :
  run_middleware mws v prev = pipeline_fold mws v prev.
Proof.
  revert v. induction mws as [|fn rest IH]; intros v; simpl; [reflexivity|].
  apply IH.
Qed.

(** C7.  Whatever the middleware list and the written value, the value
    that [set] commits to the inner signal is the left-to-right fold of
    the list over the value, every function receiving the one value the
    signal held before the write.  With the validator that rejects
    negative numbers and the signal at 5, [set(-1)] leaves 5 and
    [set(10)] gives 10. *)
Theorem wrapper_set_commits_fold :
  (forall (T : Type) (EqT : EqDecision T) (w : MiddlewareSignal) (v : T),
      innerSignal (wrapper_set v w)
      = pipeline_fold (middleware w) v (innerSignal w))
  /\ innerSignal (wrapper_set (-1) (createSignalWithMiddleware 5 [nonNegative])) = 5
  /\ innerSignal (wrapper_set 10 (createSignalWithMiddleware 5 [nonNegative])) = 10.
Proof.
  split; [|split; reflexivity].
  intros T EqT w v. unfold wrapper_set. cbn [innerSignal].
  rewrite RuntimeFacts.signal_set_value. apply run_middleware_fold.
Qed.

(** The demonstration of the source: the counter starts at 0 and is set
    to 5, -1 and 10 through logging and validation. *)
Example demonstrateMiddleware_values :
  let count0 := createSignalWithMiddleware 0 [loggingMiddleware; nonNegative] in
  let count1 := wrapper_set 5 count0 in
  let count2 := wrapper_set (-1) count1 in
  let count3 := wrapper_set 10 count2 in
  (innerSignal count1, innerSignal count2, innerSignal count3) = (5, 5, 10).
Proof. reflexivity. Qed.

(** *** Composition of the chain *)

Lemma run_middleware_app {T : Type} (mws1 mws2 : list (T -> T -> T)) (v prev : T) :
  run_middleware (mws1 ++ mws2) v prev
  = run_middleware mws2 (run_middleware mws1 v prev) prev.
Proof.
  revert v. induction mws1 as [|fn rest IH]; intros v; simpl; [reflexivity|].
  apply IH.
Qed.

Lemma wrapper_set_inner {T : Type} `{EqDecision T} (v : T) (w : MiddlewareSignal) :
  innerSignal (wrapper_set v w) = run_middleware (middleware w) v (innerSignal w)
  /\ middleware (wrapper_set v w) = middleware w.
Proof.
  unfold wrapper_set. cbn. rewrite RuntimeFacts.signal_set_value. auto.
Qed.

(** X21.  With a validation function at the end of the chain, the signal
    never leaves the valid values: when the initial value passes the
    validator, so does the value after any sequence of [set] and
    [update] calls, whatever the functions before the validator do. *)
Theorem validation_last_keeps_valid (T : Type) (EqT : EqDecision T)
    (validator : T -> bool) (initialValue : T) (mws : list (T -> T -> T))
    (cs : list (call T)) :
  validator initialValue = true ->
  validator (innerSignal (apply_calls cs
     (createSignalWithMiddleware initialValue
        (mws ++ [validationMiddleware validator])))) = true.
Proof.
  intros Hinit.
  assert (Hgen : forall (w : MiddlewareSignal),
             middleware w = mws ++ [validationMiddleware validator] ->
             validator (innerSignal w) = true ->
             validator (innerSignal (apply_calls cs w)) = true).
  { induction cs as [|c cs IH]; intros w Hmw Hvalid; [exact Hvalid|].
    unfold apply_calls in *. cbn [fold_left].
    assert (Hset : forall v, middleware (wrapper_set v w)
                             = mws ++ [validationMiddleware validator]
                             /\ validator (innerSignal (wrapper_set v w)) = true).
    { intros v. destruct (wrapper_set_inner v w) as [Hin Hm].
      split; [congruence|]. rewrite Hin, Hmw, run_middleware_app. cbn.
      unfold validationMiddleware.
      destruct (validator (run_middleware mws v (innerSignal w))) eqn:Hv;
        [exact Hv | exact Hvalid]. }
    destruct c as [v | updateFn]; cbn [apply_call]; [|unfold wrapper_update].
    - destruct (Hset v). apply IH; assumption.
    - destruct (Hset (updateFn (innerSignal w))). apply IH; assumption. }
  apply Hgen; [reflexivity | exact Hinit].
Qed.

Lemma validation_last_keeps_valid_witness :
  (0 <=? 0) = true
  /\ innerSignal (apply_calls
       [CallSet 5; CallSet (-1); CallUpdate (fun n => n - 20); CallSet 10]
       (createSignalWithMiddleware 0 ([loggingMiddleware] ++ [nonNegative]))) = 10
  /\ (0 <=? innerSignal (apply_calls
       [CallSet 5; CallSet (-1); CallUpdate (fun n => n - 20)]
       (createSignalWithMiddleware 0 ([loggingMiddleware] ++ [nonNegative])))) = true.
Proof.
  split; [reflexivity|]. split; [reflexivity|].
  apply (validation_last_keeps_valid Z _ (fun n => 0 <=? n) 0 [loggingMiddleware]
           [CallSet 5; CallSet (-1); CallUpdate (fun n => n - 20)]).
  reflexivity.
Defined.

(** X22.  The logging function is transparent wherever it stands in the
    chain: [set] commits the same value with it as without it. *)
Theorem logging_is_transparent (T : Type) (EqT : EqDecision T)
    (mws1 mws2 : list (T -> T -> T)) (initialValue v : T) :
  innerSignal (wrapper_set v
     (createSignalWithMiddleware initialValue (mws1 ++ loggingMiddleware :: mws2)))
  = innerSignal (wrapper_set v
     (createSignalWithMiddleware initialValue (mws1 ++ mws2))).
Proof.
  destruct (wrapper_set_inner v
              (createSignalWithMiddleware initialValue (mws1 ++ loggingMiddleware :: mws2)))
    as [-> _].
  destruct (wrapper_set_inner v
              (createSignalWithMiddleware initialValue (mws1 ++ mws2))) as [-> _].
  cbn [middleware innerSignal createSignalWithMiddleware].
  rewrite !run_middleware_app. reflexivity.
Qed.

End MiddlewareFacts.

(** ** Signal history *)

Module HistoryFacts.
Import History.

Section WithValue.
Context {T : Type}.

Lemma setValue_length (v : T) (h : HistorySignal T) :
  at_end h ->
  at_end (setValue v h)
  /\ maxHistory (setValue v h) = maxHistory h
  /\ length (history (setValue v h))
     = if maxHistory h <? Z.of_nat (length (history h)) + 1
       then length (history h) else S (length (history h)).
Proof.
  unfold at_end, setValue. intros Hend.
  rewrite Hend, firstn_all.
  rewrite length_app, Nat2Z.inj_add. simpl length.
  change (Z.of_nat 1) with 1.
  destruct (maxHistory h <? Z.of_nat (length (history h)) + 1); cbn.
  - destruct (history h) as [|x l]; simpl in *; [lia|].
    rewrite length_app. simpl. repeat split; lia.
  - rewrite length_app. simpl. repeat split; lia.
Qed.

Lemma setValues_length (vs : list T) (h : HistorySignal T) :
  at_end h ->
  Z.of_nat (length (history h)) <= Z.max (maxHistory h) 1 ->
  Z.of_nat (length (history (setValues vs h)))
  = Z.min (Z.of_nat (length (history h)) + Z.of_nat (length vs))
          (Z.max (maxHistory h) 1).
Proof.
  revert h. induction vs as [|v vs IH]; intros h Hend Hle.
  - simpl. lia.
  - unfold setValues in *. simpl fold_left.
    destruct (setValue_length v h Hend) as (Hend' & Hmax & Hlen).
    assert (Hpos : (1 <= length (history h))%nat) by (unfold at_end in Hend; lia).
    rewrite IH; [|assumption|]; rewrite Hmax, Hlen;
      destruct (Z.ltb_spec (maxHistory h) (Z.of_nat (length (history h)) + 1));
      simpl length; lia.
Qed.

(** The length of the log after any number of writes: it grows by one
    per write until it reaches the capacity and stays there. *)
Lemma setValues_length_capped (initialValue : T) (k : Z) (vs : list T) :
  Z.of_nat (length (history (setValues vs (createHistorySignal initialValue k))))
  = Z.min (Z.of_nat (length vs) + 1) (Z.max k 1).
Proof.
  rewrite setValues_length; cbn; [lia| reflexivity | lia].
Qed.

End WithValue.

(** C6, as amended.  With capacity [k], after [n] calls of [setValue]
    and no [undo] or [redo], [history().length] is [n + 1] whenever
    [n < k]. *)
Theorem setValue_length_below_capacity (T : Type) (k : Z) (n : nat)
    (initialValue : T) (vs : list T) :
  length vs = n ->
  Z.of_nat n < k ->
  length (history (setValues vs (createHistorySignal initialValue k))) = (n + 1)%nat.
Proof.
  intros Hn Hk.
  pose proof (setValues_length_capped initialValue k vs) as H.
  rewrite Hn in H. lia.
Qed.

Lemma setValue_length_below_capacity_witness :
  length ["B"; "C"]%string = 2%nat /\ Z.of_nat 2 < 50
  /\ length (history (setValues ["B"; "C"]%string (createHistorySignal "A"%string 50)))
     = (2 + 1)%nat.
Proof.
  split; [reflexivity|]. split; [lia|].
  apply (setValue_length_below_capacity string 50 2 "A"%string ["B"; "C"]%string).
  - reflexivity.
  - lia.
Defined.

(** C6 as stated fails at [n = k]: with capacity 1 the first write
    evicts the initial value and the log has one entry, not two. *)
Lemma setValue_length_at_capacity_counterexample :
  let h := setValues ["B"%string] (createHistorySignal "A"%string 1) in
  (1 <= 1)%nat /\ history h = ["B"%string] /\ length (history h) <> (1 + 1)%nat.
Proof. cbn. repeat split; [lia | discriminate]. Qed.

(** The example of the source: two writes, [undo], [redo]; and a write
    after [undo] drops the entry that could be redone. *)
Example history_undo_redo :
  let text := setValue "C" (setValue "B" (createHistorySignal "A" 50)) in
  value (undo text) = Some "B"
  /\ value (redo (undo text)) = Some "C"
  /\ history (setValue "D" (undo text)) = ["A"; "B"; "D"]
  /\ canRedo (setValue "D" (undo text)) = false.
Proof. repeat split; reflexivity. Qed.

(** *** Any sequence of calls *)

Section AnyCalls.
Context {T : Type}.

Lemma setValue_index_in_range (v : T) (h : HistorySignal T) :
  index_in_range h ->
  index_in_range (setValue v h)
  /\ value (setValue v h) = Some v
  /\ canRedo (setValue v h) = false.
Proof.
  unfold index_in_range, setValue, value, canRedo. intros Hidx.
  assert (Hlen : length (take (currentIndex h + 1) (history h)) = (currentIndex h + 1)%nat)
    by (rewrite length_take; lia).
  destruct (maxHistory h <? _); cbn [history currentIndex].
  - destruct (take (currentIndex h + 1) (history h)) as [|x l] eqn:Htake;
      simpl in Hlen; [lia|].
    cbn [app tail]. rewrite length_app. cbn [length].
    assert (Hl : length l = currentIndex h) by lia.
    split; [lia|]. split.
    + rewrite lookup_app_r by lia. rewrite Hl, Nat.sub_diag. reflexivity.
    + apply Z.ltb_ge. lia.
  - rewrite length_app, Hlen. cbn [length].
    split; [lia|]. split.
    + rewrite lookup_app_r by lia. rewrite Hlen, Nat.sub_diag. reflexivity.
    + apply Z.ltb_ge. lia.
Qed.

Lemma apply_call_index_in_range (c : call T) (h : HistorySignal T) :
  index_in_range h -> index_in_range (apply_call h c).
Proof.
  intros Hidx. destruct c as [v| |]; simpl.
  - apply setValue_index_in_range, Hidx.
  - unfold undo, canUndo, index_in_range in *.
    destruct (Nat.ltb_spec 0 (currentIndex h)); cbn; lia.
  - unfold redo, canRedo, index_in_range in *.
    destruct (Z.ltb_spec (Z.of_nat (currentIndex h))
                (Z.of_nat (length (history h)) - 1)); cbn; lia.
Qed.

Lemma apply_calls_index_in_range (cs : list (call T)) (h : HistorySignal T) :
  index_in_range h -> index_in_range (apply_calls cs h).
Proof.
  revert h. induction cs as [|c cs IH]; intros h Hidx; [exact Hidx|].
  apply IH, apply_call_index_in_range, Hidx.
Qed.

Lemma create_index_in_range (initialValue : T) (k : Z) :
  index_in_range (createHistorySignal initialValue k).
Proof. unfold index_in_range. cbn. lia. Qed.

Lemma apply_call_length_bound (c : call T) (h : HistorySignal T) (k : Z) :
  maxHistory h = k -> 1 <= k ->
  index_in_range h ->
  Z.of_nat (length (history h)) <= k ->
  maxHistory (apply_call h c) = k
  /\ Z.of_nat (length (history (apply_call h c))) <= k.
Proof.
  intros Hmax Hk Hidx Hlen. destruct c as [v| |]; simpl.
  - unfold setValue, index_in_range in *.
    assert (Htake : length (take (currentIndex h + 1) (history h))
                    = (currentIndex h + 1)%nat) by (rewrite length_take; lia).
    destruct (Z.ltb_spec (maxHistory h)
                (Z.of_nat (length (take (currentIndex h + 1) (history h) ++ [v]))))
      as [Hover|Hfit]; cbn [history maxHistory].
    + split; [exact Hmax|].
      destruct (take (currentIndex h + 1) (history h)) as [|x l];
        simpl in Htake; [lia|].
      cbn [app tail]. rewrite length_app. cbn [length]. lia.
    + split; [exact Hmax|]. lia.
  - unfold undo. destruct (canUndo h); cbn; auto.
  - unfold redo. destruct (canRedo h); cbn; auto.
Qed.

End AnyCalls.

(** X1.  After any sequence of [setValue], [undo] and [redo] calls, with
    any capacity, the index points into the log: [value()] is an entry
    of the log and never undefined. *)
Theorem value_always_defined (T : Type) (initialValue : T) (k : Z)
    (cs : list (call T)) :
  let h := apply_calls cs (createHistorySignal initialValue k) in
  index_in_range h /\ exists v, value h = Some v /\ v ∈ history h.
Proof.
  cbv zeta.
  pose proof (apply_calls_index_in_range cs _ (create_index_in_range initialValue k))
    as Hidx.
  split; [exact Hidx|].
  unfold index_in_range in Hidx. unfold value.
  destruct (lookup_lt_is_Some_2 _ _ Hidx) as [v Hv].
  exists v. split; [exact Hv|]. eapply list_elem_of_lookup_2, Hv.
Qed.

(** X2.  After any sequence of calls, [setValue(v)] makes [v] the current
    value and leaves nothing to redo, whether or not the write evicted
    the oldest entry. *)
Theorem setValue_is_current (T : Type) (initialValue : T) (k : Z)
    (cs : list (call T)) (v : T) :
  let h := setValue v (apply_calls cs (createHistorySignal initialValue k)) in
  value h = Some v /\ canRedo h = false.
Proof.
  cbv zeta.
  pose proof (apply_calls_index_in_range cs _ (create_index_in_range initialValue k))
    as Hidx.
  destruct (setValue_index_in_range v _ Hidx) as (_ & Hv & Hr). auto.
Qed.

(** X3.  With a capacity of at least 1, the log never holds more than
    [maxHistory] entries, whatever the sequence of calls. *)
Theorem history_length_bounded (T : Type) (initialValue : T) (k : Z)
    (cs : list (call T)) :
  1 <= k ->
  Z.of_nat (length (history (apply_calls cs (createHistorySignal initialValue k)))) <= k.
Proof.
  intros Hk.
  assert (Hgen : forall (h : HistorySignal T),
             maxHistory h = k -> index_in_range h ->
             Z.of_nat (length (history h)) <= k ->
             Z.of_nat (length (history (apply_calls cs h))) <= k).
  { induction cs as [|c cs IH]; intros h Hmax Hidx Hlen; [exact Hlen|].
    destruct (apply_call_length_bound c h k Hmax Hk Hidx Hlen) as [Hmax' Hlen'].
    apply IH; [exact Hmax' | apply apply_call_index_in_range, Hidx | exact Hlen']. }
  apply Hgen; [reflexivity | apply create_index_in_range | cbn; lia].
Qed.

Lemma history_length_bounded_witness :
  1 <= 2
  /\ Z.of_nat (length (history (apply_calls
        [SetValue "B"; SetValue "C"; Undo; SetValue "D"; SetValue "E"]
        (createHistorySignal "A" 2)))) <= 2.
Proof.
  split; [lia|].
  apply (history_length_bounded string "A" 2). lia.
Defined.

(** X4.  After any sequence of calls, [undo] and [redo] are inverse to
    each other wherever they are enabled: when [canUndo()], [undo] then
    [redo] gives back the state, and when [canRedo()], [redo] then
    [undo] does. *)
Theorem undo_redo_inverse (T : Type) (initialValue : T) (k : Z)
    (cs : list (call T)) :
  let h := apply_calls cs (createHistorySignal initialValue k) in
  (canUndo h = true -> redo (undo h) = h)
  /\ (canRedo h = true -> undo (redo h) = h).
Proof.
  cbv zeta.
  pose proof (apply_calls_index_in_range cs _ (create_index_in_range initialValue k))
    as Hidx.
  set (h := apply_calls cs _) in *. clearbody h.
  unfold index_in_range in Hidx. destruct h as [l i m]. cbn in Hidx.
  split.
  - intros Hu. unfold undo. rewrite Hu.
    unfold canUndo in Hu. cbn [currentIndex] in Hu. apply Nat.ltb_lt in Hu.
    unfold redo, canRedo. cbn [history currentIndex maxHistory].
    destruct (Z.ltb_spec (Z.of_nat (i - 1)) (Z.of_nat (length l) - 1)); [|lia].
    f_equal. lia.
  - intros Hr. unfold redo. rewrite Hr.
    unfold undo, canUndo. cbn [history currentIndex maxHistory].
    destruct (Nat.ltb_spec 0 (i + 1)); [|lia].
    f_equal. lia.
Qed.

Lemma undo_redo_inverse_witness :
  let h := apply_calls [SetValue "B"; SetValue "C"; Undo]
             (createHistorySignal "A" 50) in
  canUndo h = true /\ canRedo h = true
  /\ redo (undo h) = h /\ undo (redo h) = h.
Proof.
  cbv zeta.
  destruct (undo_redo_inverse string "A" 50 [SetValue "B"; SetValue "C"; Undo])
    as [Hu Hr].
  split; [reflexivity|]. split; [reflexivity|].
  split; [apply Hu | apply Hr]; reflexivity.
Defined.

(** *** What the log holds *)

Lemma tail_drop {T : Type} (m : nat) (l : list T) : tail (drop m l) = drop (S m) l.
Proof.
  revert l. induction m as [|m IH]; intros l.
  - destruct l; reflexivity.
  - destruct l as [|x l]; [reflexivity|]. simpl. apply IH.
Qed.

Lemma setValues_snoc {T : Type} (vs : list T) (v : T) (h : HistorySignal T) :
  setValues (vs ++ [v]) h = setValue v (setValues vs h).
Proof. unfold setValues. rewrite fold_left_app. reflexivity. Qed.

Lemma setValues_recent {T : Type} (initialValue : T) (k : Z) (vs : list T) :
  let h := setValues vs (createHistorySignal initialValue k) in
  at_end h /\ maxHistory h = k
  /\ history h
     = drop (length vs + 1 - Z.to_nat (Z.max k 1)) (initialValue :: vs).
Proof.
  cbv zeta. induction vs as [|v vs IH] using rev_ind.
  - cbn. split; [reflexivity|]. split; [reflexivity|].
    replace (1 - Z.to_nat (Z.max k 1))%nat with 0%nat by lia. reflexivity.
  - destruct IH as (Hend & Hmax & Hhist).
    rewrite setValues_snoc.
    destruct (setValue_length v _ Hend) as (Hend' & Hmax' & _).
    split; [exact Hend'|]. split; [congruence|].
    generalize dependent (setValues vs (createHistorySignal initialValue k)).
    intros h Hend Hmax Hhist _ _.
    assert (Htake : take (currentIndex h + 1) (history h) = history h)
      by (rewrite Hend; apply firstn_all).
    unfold setValue. cbv zeta. rewrite !Htake, Hmax, Hhist.
    rewrite (length_app (drop _ _)), length_drop, (length_app vs). cbn [length].
    set (m := (length vs + 1 - Z.to_nat (Z.max k 1))%nat).
    change (initialValue :: vs ++ [v]) with ((initialValue :: vs) ++ [v]).
    destruct (Z.ltb_spec k (Z.of_nat (S (length vs) - m + 1))) as [Hover|Hfit];
      cbn [history].
    + rewrite <- (drop_app_le (initialValue :: vs) [v] m) by (cbn; lia).
      rewrite tail_drop. f_equal. lia.
    + rewrite <- (drop_app_le (initialValue :: vs) [v] m) by (cbn; lia).
      f_equal. lia.
Qed.

(** X5.  After any number of [setValue] calls and no [undo], the log is
    the most recent values, oldest first: the initial value followed by
    the written ones, cut from the front to the capacity (to one entry
    when the capacity is below 1). *)
Theorem history_holds_most_recent (T : Type) (initialValue : T) (k : Z)
    (vs : list T) :
  history (setValues vs (createHistorySignal initialValue k))
  = drop (length vs + 1 - Z.to_nat (Z.max k 1)) (initialValue :: vs).
Proof. apply setValues_recent. Qed.

(** *** Walking back *)

Lemma undos_fields {T : Type} (m : nat) (h : HistorySignal T) :
  history (undos m h) = history h
  /\ currentIndex (undos m h) = (currentIndex h - m)%nat.
Proof.
  unfold undos. induction m as [|m [IHh IHi]].
  - cbn. split; [reflexivity | lia].
  - change (Nat.iter (S m) undo h) with (undo (Nat.iter m undo h)).
    generalize dependent (Nat.iter m undo h). intros h' IHh IHi.
    unfold undo, canUndo.
    destruct (Nat.ltb_spec 0 (currentIndex h'));
      cbn [history currentIndex]; (split; [exact IHh | lia]).
Qed.

(** X26.  Below the capacity, [undo] walks back through the written
    values: after [n] writes and [m] calls of [undo], [value()] is the
    value written [m] writes before the last one, and the initial value
    once [m] reaches [n]; further calls of [undo] stay there. *)
Theorem undo_walks_back (T : Type) (initialValue : T) (k : Z) (vs : list T)
    (m : nat) :
  Z.of_nat (length vs) < k ->
  value (undos m (setValues vs (createHistorySignal initialValue k)))
  = (initialValue :: vs) !! (length vs - m)%nat.
Proof.
  intros Hk.
  destruct (setValues_recent initialValue k vs) as (Hend & _ & Hhist).
  destruct (undos_fields m (setValues vs (createHistorySignal initialValue k)))
    as [Hh Hi].
  unfold value. rewrite Hh, Hi, Hhist.
  replace (length vs + 1 - Z.to_nat (Z.max k 1))%nat with 0%nat by lia.
  unfold at_end in Hend. rewrite Hhist in Hend.
  replace (length vs + 1 - Z.to_nat (Z.max k 1))%nat with 0%nat in Hend by lia.
  cbn [drop length] in Hend |- *.
  replace (currentIndex (setValues vs (createHistorySignal initialValue k)))
    with (length vs) by lia.
  reflexivity.
Qed.

Lemma undo_walks_back_witness :
  Z.of_nat (length ["B"; "C"; "D"]%string) < 50
  /\ value (undos 2 (setValues ["B"; "C"; "D"]%string (createHistorySignal "A"%string 50)))
     = Some "B"%string
  /\ value (undos 7 (setValues ["B"; "C"; "D"]%string (createHistorySignal "A"%string 50)))
     = Some "A"%string.
Proof.
  split; [cbn; lia|].
  split; rewrite (undo_walks_back string "A"%string 50 ["B"; "C"; "D"]%string)
    by (cbn; lia); reflexivity.
Defined.

End HistoryFacts.

(** ** Signal set *)

Module SignalSetFacts.
Import SignalSet.

Section WithItem.
Context {T : Type}.

Lemma has_true_iff (item : T) (s : SignalSet T) :
  has item s = true <-> In (keyFn s item) (map (keyFn s) (items s)).
Proof.
  unfold has. rewrite existsb_exists, in_map_iff.
  split; intros (i & H1 & H2); exists i.
  - apply bool_decide_eq_true in H2. auto.
  - split; [assumption|]. apply bool_decide_eq_true. assumption.
Qed.

Lemma add_unique (item : T) (s : SignalSet T) :
  unique_keys s -> unique_keys (add item s).
Proof.
  unfold unique_keys, add. intros Hs.
  destruct (has item s) eqn:Hhas; simpl; [assumption|].
  rewrite map_app. simpl.
  apply NoDup_app. split; [assumption|]. split.
  - intros k Hk Hin. apply list_elem_of_In in Hk.
    apply list_elem_of_singleton in Hin. subst k.
    apply has_true_iff in Hk. congruence.
  - apply NoDup_singleton.
Qed.

Lemma map_filter_sublist (f : T -> string) (p : T -> bool) (l : list T) :
  NoDup (map f l) -> NoDup (map f (List.filter p l)).
Proof.
  induction l as [|x l IH]; simpl; intros Hnd; [assumption|].
  apply NoDup_cons in Hnd as [Hx Hl].
  destruct (p x); simpl; [|auto].
  apply NoDup_cons. split; [|auto].
  intros Hin. apply Hx.
  apply list_elem_of_In, in_map_iff in Hin as (y & Hy & Hin).
  apply list_elem_of_In, in_map_iff. exists y. split; [assumption|].
  apply filter_In in Hin. tauto.
Qed.

Lemma remove_unique (item : T) (s : SignalSet T) :
  unique_keys s -> unique_keys (remove item s).
Proof. unfold unique_keys, remove. simpl. apply map_filter_sublist. Qed.

Lemma toggle_unique (item : T) (s : SignalSet T) :
  unique_keys s -> unique_keys (toggle item s).
Proof.
  unfold toggle. destruct (has item s); auto using add_unique, remove_unique.
Qed.

Lemma clear_unique (s : SignalSet T) : unique_keys (clear s).
Proof. unfold unique_keys, clear. simpl. apply NoDup_nil. exact I. Qed.

Lemma apply_call_unique (c : call T) (s : SignalSet T) :
  unique_keys s -> unique_keys (apply_call s c).
Proof.
  destruct c; simpl;
    auto using add_unique, remove_unique, toggle_unique, clear_unique.
Qed.

Lemma apply_calls_unique (cs : list (call T)) (s : SignalSet T) :
  unique_keys s -> unique_keys (apply_calls cs s).
Proof.
  revert s. induction cs as [|c cs IH]; intros s Hs; [assumption|].
  apply IH, apply_call_unique, Hs.
Qed.

End WithItem.

(** C9, as amended.  When the initial array has no two elements with
    equal keys (as the default, empty array), then after any sequence of
    [add], [remove], [toggle] and [clear] calls [items()] has no two
    elements whose keys under the set's [keyFn] are equal. *)
Theorem unique_keys_after_calls (T : Type) (initial : list T)
    (keyFn : T -> string) (cs : list (call T)) :
  NoDup (map keyFn initial) ->
  unique_keys (apply_calls cs (createSignalSet initial keyFn)).
Proof. intros Hinit. apply apply_calls_unique. exact Hinit. Qed.

Lemma unique_keys_after_calls_witness :
  NoDup (map String_ [])
  /\ unique_keys (apply_calls
       [Add "typescript"; Add "angular"; Add "angular"; Toggle "typescript"]%string
       (createSignalSet [] String_)).
Proof.
  split; [apply NoDup_nil; exact I|].
  apply (unique_keys_after_calls string [] String_). apply NoDup_nil. exact I.
Defined.

(** C9 as stated fails for a set created with a repeated element:
    [add] and [toggle] of other items leave the repetition in place. *)
Lemma duplicate_initial_counterexample :
  let s := apply_calls [Add "b"; Toggle "c"]%string
             (createSignalSet ["a"; "a"]%string String_) in
  items s = ["a"; "a"; "b"; "c"]%string /\ ~ unique_keys s.
Proof.
  cbn. split; [reflexivity|].
  unfold unique_keys. cbn. intros Hnd.
  apply NoDup_cons in Hnd as [Hnotin _]. apply Hnotin. left.
Qed.

(** The example of the source: two tags are added and the first is
    toggled away. *)
Example tags_example :
  let tags := apply_calls [Add "typescript"; Add "angular"; Toggle "typescript"]
                (createSignalSet [] String_) in
  items tags = ["angular"] /\ size tags = 1%nat.
Proof. split; reflexivity. Qed.

(** *** Membership *)

Section Membership.
Context {T : Type}.

Lemma existsb_filter_out (p : T -> bool) (l : list T) :
  existsb p (List.filter (fun i => negb (p i)) l) = false.
Proof.
  induction l as [|x l IH]; [reflexivity|]. simpl.
  destruct (p x) eqn:Hp; simpl; [exact IH|]. rewrite Hp. exact IH.
Qed.

Lemma filter_nothing (p : T -> bool) (l : list T) :
  existsb p l = false -> List.filter (fun i => negb (p i)) l = l.
Proof.
  induction l as [|x l IH]; [reflexivity|]. simpl. intros Hex.
  apply orb_false_iff in Hex as [Hx Hl]. rewrite Hx. simpl. f_equal. auto.
Qed.

Lemma has_add (item : T) (s : SignalSet T) : has item (add item s) = true.
Proof.
  unfold add. destruct (has item s) eqn:Hhas; simpl; [exact Hhas|].
  unfold has. cbn [items keyFn]. rewrite existsb_app. simpl.
  rewrite bool_decide_eq_true_2 by reflexivity. apply orb_true_r.
Qed.

Lemma has_remove (item : T) (s : SignalSet T) : has item (remove item s) = false.
Proof.
  unfold has, remove. cbn [items keyFn].
  apply (existsb_filter_out (fun i => bool_decide (keyFn s i = keyFn s item))).
Qed.

Lemma remove_absent (item : T) (s : SignalSet T) :
  has item s = false -> remove item s = s.
Proof.
  unfold has, remove. intros Hhas.
  rewrite (filter_nothing (fun i => bool_decide (keyFn s i = keyFn s item)))
    by exact Hhas.
  destruct s; reflexivity.
Qed.

Lemma has_add_other (item other : T) (s : SignalSet T) :
  keyFn s other <> keyFn s item ->
  has other (add item s) = has other s.
Proof.
  intros Hne. unfold add. destruct (has item s); simpl; [reflexivity|].
  unfold has. cbn [items keyFn]. rewrite existsb_app. simpl.
  rewrite (bool_decide_eq_false_2 (keyFn s item = keyFn s other)) by congruence.
  rewrite !orb_false_r. reflexivity.
Qed.

Lemma has_remove_other (item other : T) (s : SignalSet T) :
  keyFn s other <> keyFn s item ->
  has other (remove item s) = has other s.
Proof.
  intros Hne. unfold has, remove. cbn [items keyFn].
  induction (items s) as [|x l IH]; [reflexivity|]. simpl.
  destruct (bool_decide (keyFn s x = keyFn s item)) eqn:Hx; simpl.
  - apply bool_decide_eq_true in Hx.
    rewrite (bool_decide_eq_false_2 (keyFn s x = keyFn s other)) by congruence.
    simpl. exact IH.
  - rewrite IH. reflexivity.
Qed.

End Membership.

(** X6.  Whatever the set holds (repeated keys included): after
    [add(item)] the set has the item, after [remove(item)] it has not,
    [toggle(item)] flips [has(item)], and after [clear()] it has
    nothing. *)
Theorem membership_after_calls (T : Type) (item : T) (s : SignalSet T) :
  has item (add item s) = true
  /\ has item (remove item s) = false
  /\ has item (toggle item s) = negb (has item s)
  /\ has item (clear s) = false.
Proof.
  split; [apply has_add|]. split; [apply has_remove|]. split; [|reflexivity].
  unfold toggle. destruct (has item s) eqn:Hhas; simpl.
  - apply has_remove.
  - apply has_add.
Qed.

(** X7.  [add], [remove] and [toggle] of an item leave [has] as it was
    for every item with a different key. *)
Theorem membership_of_other_keys (T : Type) (item other : T) (s : SignalSet T) :
  keyFn s other <> keyFn s item ->
  has other (add item s) = has other s
  /\ has other (remove item s) = has other s
  /\ has other (toggle item s) = has other s.
Proof.
  intros Hne.
  split; [apply has_add_other, Hne|]. split; [apply has_remove_other, Hne|].
  unfold toggle. destruct (has item s).
  - apply has_remove_other, Hne.
  - apply has_add_other, Hne.
Qed.

Lemma membership_of_other_keys_witness :
  let s := createSignalSet ["angular"; "rxjs"]%string String_ in
  keyFn s "angular"%string <> keyFn s "rxjs"%string
  /\ has "angular"%string (remove "rxjs"%string s) = true
  /\ has "angular"%string (toggle "rxjs"%string s) = true.
Proof.
  cbv zeta.
  assert (Hne : String_ "angular"%string <> String_ "rxjs"%string) by discriminate.
  split; [exact Hne|].
  destruct (membership_of_other_keys string "rxjs"%string "angular"%string
              (createSignalSet ["angular"; "rxjs"]%string String_) Hne)
    as (_ & Hr & Ht).
  rewrite Hr, Ht. split; reflexivity.
Defined.

(** X8.  [toggle] twice with an item whose key the set does not have
    gives back the set, element for element. *)
Theorem toggle_twice_absent (T : Type) (item : T) (s : SignalSet T) :
  has item s = false ->
  toggle item (toggle item s) = s.
Proof.
  intros Hhas.
  assert (Hadd : toggle item s = add item s) by (unfold toggle; rewrite Hhas; reflexivity).
  rewrite Hadd. unfold toggle. rewrite has_add.
  unfold add. rewrite Hhas. simpl.
  unfold remove. cbn [items keyFn].
  rewrite List.filter_app. simpl.
  rewrite bool_decide_eq_true_2 by reflexivity. simpl.
  rewrite app_nil_r.
  rewrite (filter_nothing (fun i => bool_decide (keyFn s i = keyFn s item)))
    by exact Hhas.
  destruct s; reflexivity.
Qed.

Lemma toggle_twice_absent_witness :
  let s := createSignalSet ["angular"]%string String_ in
  has "typescript"%string s = false
  /\ toggle "typescript"%string (toggle "typescript"%string s) = s.
Proof.
  cbv zeta. split; [reflexivity|].
  apply (toggle_twice_absent string). reflexivity.
Defined.

(** X9.  Calls with nothing to do change nothing: [add] of an item whose
    key is present and [remove] of one whose key is absent return the
    set as it is, so [add] and [remove] are idempotent; an [add] that
    does something appends the item after the elements already there. *)
Theorem add_remove_idempotent (T : Type) (item : T) (s : SignalSet T) :
  add item (add item s) = add item s
  /\ remove item (remove item s) = remove item s
  /\ (has item s = true -> add item s = s)
  /\ (has item s = false -> remove item s = s)
  /\ (has item s = false -> items (add item s) = items s ++ [item]).
Proof.
  split; [|split; [|split; [|split]]].
  - unfold add at 1. rewrite has_add. reflexivity.
  - apply remove_absent, has_remove.
  - intros Hhas. unfold add. rewrite Hhas. reflexivity.
  - apply remove_absent.
  - intros Hhas. unfold add. rewrite Hhas. reflexivity.
Qed.

Lemma add_remove_idempotent_witness :
  let s := createSignalSet ["angular"]%string String_ in
  has "angular"%string s = true /\ add "angular"%string s = s
  /\ has "rxjs"%string s = false /\ remove "rxjs"%string s = s
  /\ items (add "rxjs"%string s) = ["angular"; "rxjs"]%string.
Proof.
  cbv zeta.
  destruct (add_remove_idempotent string "angular"%string
              (createSignalSet ["angular"]%string String_)) as (_ & _ & Ha & _ & _).
  destruct (add_remove_idempotent string "rxjs"%string
              (createSignalSet ["angular"]%string String_)) as (_ & _ & _ & Hr & Hi).
  split; [reflexivity|]. split; [apply Ha; reflexivity|].
  split; [reflexivity|]. split; [apply Hr; reflexivity|].
  apply Hi. reflexivity.
Defined.

End SignalSetFacts.

(** ** Computed with previous value *)

Module ComputedWithPreviousFacts.
Import Runtime ComputedWithPrevious.

Section WithTypes.
Context {T R E : Type} `{EqDecision T}.
Variable computeFn : T -> option T -> completion E R.







End WithTypes.




(** The example of the source: the count starts at 10 and is set to 15. *)
Example delta_example :
  let d0 := computedWithPrevious 10 in
  let r1 := read delta d0 in
  let r2 := read delta (source_set 15 (snd r1)) in
  fst r1 = Normal 0 /\ fst r2 = Normal 5
  /\ previousValue (snd r2) = Some 15.
Proof. repeat split; reflexivity. Qed.

(** *** Writes between two reads *)





End ComputedWithPreviousFacts.

(** ** Persistent store *)

Module PersistentStoreFacts.
Import Runtime PersistentStore.

Section WithValue.
Context {T : Type} `{EqDecision T}.
Variable JSON_parse : string -> option T.
Variable JSON_stringify : T -> option string.

Lemma create_absent (key : string) (initialValue : T) (b : Browser) :
  getItem b key = None \/ getItem b key = Some ""%string ->
  createPersistentStore JSON_parse key initialValue b
  = Normal {| key := key; initialValue := initialValue; state := initialValue;
              effect_pending := true |}.
Proof.
  unfold createPersistentStore. intros [-> | ->]; reflexivity.
Qed.

Lemma create_parsed (key s : string) (initialValue v : T) (b : Browser) :
  getItem b key = Some s -> s <> ""%string -> JSON_parse s = Some v ->
  createPersistentStore JSON_parse key initialValue b
  = Normal {| key := key; initialValue := initialValue; state := v;
              effect_pending := true |}.
Proof.
  unfold createPersistentStore. intros -> Hs ->.
  rewrite bool_decide_eq_false_2 by assumption. reflexivity.
Qed.

Lemma create_malformed (key s : string) (initialValue : T) (b : Browser) :
  getItem b key = Some s -> s <> ""%string -> JSON_parse s = None ->
  createPersistentStore JSON_parse key initialValue b = Throw SyntaxError.
Proof.
  unfold createPersistentStore. intros -> Hs ->.
  rewrite bool_decide_eq_false_2 by assumption. reflexivity.
Qed.

Lemma set_normal (v : T) (p : PersistentStore T) :
  set v p
  = Normal {| key := key p; initialValue := initialValue p; state := v;
              effect_pending := effect_pending p || negb (bool_decide (state p = v)) |}.
Proof.
  unfold set, signal_set. case_bool_decide; simpl; [subst v|]; reflexivity.
Qed.

Lemma run_effect_unserializable (b : Browser) (p : PersistentStore T) :
  effect_pending p = true -> window b = true ->
  JSON_stringify (state p) = None ->
  run_effect JSON_stringify b p
  = (Throw TypeError, b,
     {| key := key p; initialValue := initialValue p; state := state p;
        effect_pending := false |}).
Proof. unfold run_effect. intros -> -> ->. reflexivity. Qed.

Lemma run_effect_saves (b : Browser) (p : PersistentStore T) (s : string) :
  effect_pending p = true -> window b = true ->
  JSON_stringify (state p) = Some s ->
  run_effect JSON_stringify b p
  = (Normal tt,
     {| window := true; localStorage := <[key p := s]> (localStorage b) |},
     {| key := key p; initialValue := initialValue p; state := state p;
        effect_pending := false |}).
Proof. unfold run_effect. intros -> -> ->. reflexivity. Qed.

End WithValue.

(** C4, as amended.  At construction, when the store holds no record
    under the key (or the empty string), [state()] is the default and
    construction does not throw; when it holds a record that parses,
    [state()] is the parsed value; when it holds a record that fails to
    parse, construction throws the parse error. *)
Theorem createPersistentStore_initial_state (T : Type) (EqT : EqDecision T)
    (JSON_parse : string -> option T) (key : string) (initialValue : T)
    (b : Browser) :
  match getItem b key with
  | None =>
      exists p, createPersistentStore JSON_parse key initialValue b = Normal p
                /\ state p = initialValue
  | Some s =>
      if bool_decide (s = ""%string) then
        exists p, createPersistentStore JSON_parse key initialValue b = Normal p
                  /\ state p = initialValue
      else match JSON_parse s with
           | Some v =>
               exists p, createPersistentStore JSON_parse key initialValue b = Normal p
                         /\ state p = v
           | None =>
               createPersistentStore JSON_parse key initialValue b = Throw SyntaxError
           end
  end.
Proof.
  destruct (getItem b key) as [s|] eqn:Hget.
  - case_bool_decide as Hs.
    + subst s. eexists. split; [apply create_absent; right; exact Hget | reflexivity].
    + destruct (JSON_parse s) as [v|] eqn:Hparse.
      * eexists. split; [eapply create_parsed; eassumption | reflexivity].
      * eapply create_malformed; eassumption.
  - eexists. split; [apply create_absent; left; exact Hget | reflexivity].
Qed.

(** C4 as stated fails on a malformed record: construction throws
    [SyntaxError] instead of falling back to the default. *)
Lemma malformed_record_counterexample :
  getItem malformed_browser "prefs" = Some "{oops"%string
  /\ JSON_parse "{oops" = None
  /\ createPersistentStore JSON_parse "prefs" (VNum 0) malformed_browser
     = Throw SyntaxError.
Proof. vm_compute. repeat split; reflexivity. Qed.

(** The counter store is what construction and the first effect run
    give. *)
Lemma counter_store_created :
  exists p,
    createPersistentStore JSON_parse "counter" (VNum 0) fresh_browser = Normal p
    /\ run_effect JSON_stringify fresh_browser p
       = (Normal tt, counter_browser, counter_store).
Proof. eexists. split; reflexivity. Qed.




(** A value that was set and saved is the state of the next store
    constructed under the same key. *)
Example store_round_trip :
  exists p b' p',
    set (VNum (-7)) counter_store = Normal p
    /\ run_effect JSON_stringify counter_browser p = (Normal tt, b', p')
    /\ getItem b' "counter" = Some "-7"%string
    /\ createPersistentStore JSON_parse "counter" (VNum 0) b'
       = Normal {| key := "counter"; initialValue := VNum 0; state := VNum (-7);
                   effect_pending := true |}.
Proof.
  eexists _, _, _. split; [reflexivity|]. split; [reflexivity|].
  split; vm_compute; reflexivity.
Qed.

(** *** Any sequence of calls *)

Section AnyCalls.
Context {T : Type} `{EqDecision T}.
Variable JSON_parse : string -> option T.
Variable JSON_stringify : T -> option string.

Lemma apply_call_frame (c : call T) (b b' : Browser) (p p' : PersistentStore T) :
  apply_call JSON_stringify (b, p) c = (b', p') ->
  key p' = key p /\ initialValue p' = initialValue p /\ window b' = window b
  /\ (forall k, k <> key p -> localStorage b' !! k = localStorage b !! k)
  /\ (window b = false -> localStorage b' = localStorage b).
Proof.
  assert (Hset : forall v, key (after (set v p) p) = key p
                           /\ initialValue (after (set v p) p) = initialValue p)
    by (intros v; rewrite set_normal; split; reflexivity).
  destruct c as [v | updater | |]; cbn [apply_call].
  - intros [= <- <-]. destruct (Hset v). auto.
  - intros [= <- <-]. destruct (Hset (updater (state p))). auto.
  - intros [= <- <-]. destruct (Hset (initialValue p)). auto.
  - unfold run_effect.
    destruct (effect_pending p); [|intros [= <- <-]; auto].
    destruct (window b) eqn:Hw; [|intros [= <- <-]; auto].
    destruct (JSON_stringify (state p)) as [s|]; intros [= <- <-]; cbn.
    + repeat split; try reflexivity; try discriminate.
      intros k Hk. apply lookup_insert_ne. congruence.
    + rewrite Hw. repeat split; try reflexivity; discriminate.
Qed.

Lemma apply_call_in_sync (c : call T) (w : Browser * PersistentStore T) :
  in_sync JSON_stringify w -> in_sync JSON_stringify (apply_call JSON_stringify w c).
Proof.
  destruct w as [b p]. unfold in_sync. intros Hsync.
  assert (Hset : forall v,
             effect_pending (after (set v p) p) = false -> window b = true ->
             forall s, JSON_stringify (state (after (set v p) p)) = Some s ->
                       localStorage b !! key (after (set v p) p) = Some s).
  { intros v. rewrite set_normal. cbn.
    intros Hp Hw s Hs. apply orb_false_iff in Hp as [Hp Heq].
    apply negb_false_iff, bool_decide_eq_true in Heq. subst v.
    apply Hsync; assumption. }
  destruct c as [v | updater | |]; cbn [apply_call].
  - apply Hset.
  - apply Hset.
  - apply Hset.
  - unfold run_effect.
    destruct (effect_pending p) eqn:Hp; [|rewrite Hp; exact Hsync].
    destruct (window b) eqn:Hw.
    + destruct (JSON_stringify (state p)) as [s|] eqn:Hs; cbn.
      * intros _ _ s' Hs'. rewrite Hs in Hs'. injection Hs' as <-.
        apply lookup_insert_eq.
      * intros _ _ s' Hs'. congruence.
    + cbn. intros _ Hw'. congruence.
Qed.

Lemma apply_calls_frame (cs : list (call T)) (b b' : Browser)
    (p p' : PersistentStore T) :
  apply_calls JSON_stringify cs (b, p) = (b', p') ->
  key p' = key p /\ initialValue p' = initialValue p /\ window b' = window b
  /\ (forall k, k <> key p -> localStorage b' !! k = localStorage b !! k)
  /\ (window b = false -> localStorage b' = localStorage b).
Proof.
  revert b p. induction cs as [|c cs IH]; intros b p.
  - intros [= <- <-]. auto.
  - unfold apply_calls. cbn [fold_left].
    destruct (apply_call JSON_stringify (b, p) c) as [b1 p1] eqn:Hc.
    intros Hrest. apply IH in Hrest as (Hk & Hi & Hw & Hother & Hssr).
    apply apply_call_frame in Hc as (Hk1 & Hi1 & Hw1 & Hother1 & Hssr1).
    split; [congruence|]. split; [congruence|]. split; [congruence|]. split.
    + intros k Hne. rewrite Hother by congruence. apply Hother1, Hne.
    + intros Hnw. rewrite Hssr by congruence. apply Hssr1, Hnw.
Qed.

Lemma apply_calls_in_sync (cs : list (call T)) (w : Browser * PersistentStore T) :
  in_sync JSON_stringify w -> in_sync JSON_stringify (apply_calls JSON_stringify cs w).
Proof.
  revert w. induction cs as [|c cs IH]; intros w Hsync; [exact Hsync|].
  apply IH, apply_call_in_sync, Hsync.
Qed.

Lemma create_normal (key : string) (initialValue : T) (b : Browser)
    (p : PersistentStore T) :
  createPersistentStore JSON_parse key initialValue b = Normal p ->
  PersistentStore.key p = key /\ PersistentStore.initialValue p = initialValue
  /\ effect_pending p = true.
Proof.
  unfold createPersistentStore.
  destruct (getItem b key) as [s|]; [|intros [= <-]; auto].
  case_bool_decide; [intros [= <-]; auto|].
  destruct (JSON_parse s); [intros [= <-]; auto | discriminate].
Qed.

End AnyCalls.

(** X11.  A value that serializes to a non-empty text which parses back
    to it survives a reload: after [set(v)] and the run of the saving
    effect, a store constructed under the same key, with any default,
    starts with [state() == v]. *)
Theorem persisted_value_is_reloaded (T : Type) (EqT : EqDecision T)
    (JSON_parse : string -> option T) (JSON_stringify : T -> option string)
    (v default : T) (s : string) (p : PersistentStore T) (b : Browser) :
  JSON_stringify v = Some s ->
  JSON_parse s = Some v ->
  s <> ""%string ->
  window b = true ->
  state p <> v \/ effect_pending p = true ->
  exists p1 b2 p2,
    set v p = Normal p1
    /\ run_effect JSON_stringify b p1 = (Normal tt, b2, p2)
    /\ createPersistentStore JSON_parse (key p) default b2
       = Normal {| key := key p; initialValue := default; state := v;
                   effect_pending := true |}.
Proof.
  intros Hser Hparse Hs Hw Hdue.
  eexists _, _, _. split; [apply set_normal|]. split.
  - apply run_effect_saves; cbn; [|exact Hw|exact Hser].
    destruct Hdue as [Hne | Hp].
    + rewrite bool_decide_eq_false_2 by exact Hne. apply orb_true_r.
    + rewrite Hp. reflexivity.
  - cbn [key]. eapply create_parsed; [|exact Hs|exact Hparse].
    unfold getItem. cbn. apply lookup_insert_eq.
Qed.

Lemma persisted_value_is_reloaded_witness :
  JSON_stringify (VNum 5) = Some "5"%string
  /\ JSON_parse "5" = Some (VNum 5)
  /\ exists p1 b2 p2,
      set (VNum 5) counter_store = Normal p1
      /\ run_effect JSON_stringify counter_browser p1 = (Normal tt, b2, p2)
      /\ createPersistentStore JSON_parse "counter" (VNum 0) b2
         = Normal {| key := "counter"; initialValue := VNum 0; state := VNum 5;
                     effect_pending := true |}.
Proof.
  split; [reflexivity|]. split; [reflexivity|].
  apply (persisted_value_is_reloaded jsval _ JSON_parse JSON_stringify
           (VNum 5) (VNum 0) "5"%string counter_store counter_browser);
    [reflexivity | reflexivity | discriminate | reflexivity | left; discriminate].
Defined.

(** X12.  [reset()] restores the default that was passed to the
    constructor, not the value that construction loaded from the store,
    after any sequence of [set], [update], [reset] calls and effect
    runs. *)
Theorem reset_restores_default (T : Type) (EqT : EqDecision T)
    (JSON_parse : string -> option T) (JSON_stringify : T -> option string)
    (key : string) (default : T) (b b' : Browser) (p0 p' : PersistentStore T)
    (cs : list (call T)) :
  createPersistentStore JSON_parse key default b = Normal p0 ->
  apply_calls JSON_stringify cs (b, p0) = (b', p') ->
  exists p'', reset p' = Normal p'' /\ state p'' = default.
Proof.
  intros Hcreate Hcalls.
  apply create_normal in Hcreate as (_ & Hinit & _).
  apply apply_calls_frame in Hcalls as (_ & Hinit' & _).
  unfold reset. rewrite set_normal. eexists. split; [reflexivity|].
  cbn. congruence.
Qed.

Lemma reset_restores_default_witness :
  createPersistentStore JSON_parse "counter" (VNum 99) shared_browser
  = Normal loaded_store
  /\ state loaded_store = VNum 0
  /\ exists b' p' p'',
      apply_calls JSON_stringify [CallSet (VNum 3); EffectRun]
        (shared_browser, loaded_store) = (b', p')
      /\ reset p' = Normal p'' /\ state p'' = VNum 99.
Proof.
  assert (Hcreate : createPersistentStore JSON_parse "counter" (VNum 99) shared_browser
                    = Normal loaded_store) by (vm_compute; reflexivity).
  split; [exact Hcreate|]. split; [reflexivity|].
  destruct (apply_calls JSON_stringify [CallSet (VNum 3); EffectRun]
              (shared_browser, loaded_store)) as [b' p'] eqn:Hcalls.
  destruct (reset_restores_default jsval _ JSON_parse JSON_stringify "counter"
              (VNum 99) shared_browser b' loaded_store p' _ Hcreate Hcalls)
    as (p'' & Hreset & Hstate).
  exists b', p', p''. auto.
Defined.

(** X13.  After any sequence of calls and effect runs on a store
    constructed in a browser with a window: whenever no save is pending
    and the state serializes, the record under the key is the
    serialized state. *)
Theorem saved_record_matches_state (T : Type) (EqT : EqDecision T)
    (JSON_parse : string -> option T) (JSON_stringify : T -> option string)
    (key : string) (default : T) (b b' : Browser) (p0 p' : PersistentStore T)
    (cs : list (call T)) (s : string) :
  createPersistentStore JSON_parse key default b = Normal p0 ->
  apply_calls JSON_stringify cs (b, p0) = (b', p') ->
  window b = true ->
  effect_pending p' = false ->
  JSON_stringify (state p') = Some s ->
  localStorage b' !! key = Some s.
Proof.
  intros Hcreate Hcalls Hw Hp Hs.
  apply create_normal in Hcreate as (Hkey & _ & Hpending).
  assert (Hsync0 : in_sync JSON_stringify (b, p0))
    by (unfold in_sync; intros Hf; congruence).
  pose proof (apply_calls_in_sync JSON_stringify cs _ Hsync0) as Hsync.
  rewrite Hcalls in Hsync. unfold in_sync in Hsync.
  apply apply_calls_frame in Hcalls as (Hk & _ & Hw' & _).
  rewrite <- Hkey, <- Hk. apply Hsync; congruence.
Qed.

Lemma saved_record_matches_state_witness :
  exists b' p',
    apply_calls JSON_stringify
      [CallSet (VNum 3); CallUpdate (fun _ => VNum 4); EffectRun; CallSet (VNum 4)]
      (shared_browser, loaded_store) = (b', p')
    /\ effect_pending p' = false
    /\ localStorage b' !! "counter"%string = Some "4"%string.
Proof.
  destruct (apply_calls JSON_stringify
              [CallSet (VNum 3); CallUpdate (fun _ => VNum 4); EffectRun; CallSet (VNum 4)]
              (shared_browser, loaded_store)) as [b' p'] eqn:Hcalls.
  exists b', p'. split; [reflexivity|].
  assert (Hp : effect_pending p' = false)
    by (vm_compute in Hcalls; injection Hcalls as _ <-; reflexivity).
  split; [exact Hp|].
  apply (saved_record_matches_state jsval _ JSON_parse JSON_stringify "counter"
           (VNum 99) shared_browser b' loaded_store p'
           [CallSet (VNum 3); CallUpdate (fun _ => VNum 4); EffectRun; CallSet (VNum 4)]
           "4"%string);
    [vm_compute; reflexivity | exact Hcalls | reflexivity | exact Hp |].
  vm_compute in Hcalls. injection Hcalls as _ <-. reflexivity.
Defined.

(** X14.  A store writes under its own key only: after any sequence of
    calls and effect runs every other record of [localStorage] is as it
    was, and without a window nothing is written at all. *)
Theorem store_writes_only_its_key (T : Type) (EqT : EqDecision T)
    (JSON_stringify : T -> option string) (b b' : Browser)
    (p p' : PersistentStore T) (cs : list (call T)) :
  apply_calls JSON_stringify cs (b, p) = (b', p') ->
  (forall k, k <> key p -> localStorage b' !! k = localStorage b !! k)
  /\ (window b = false -> localStorage b' = localStorage b).
Proof.
  intros Hcalls.
  apply apply_calls_frame in Hcalls as (_ & _ & _ & Hother & Hssr). auto.
Qed.

Lemma store_writes_only_its_key_witness :
  exists b' p',
    apply_calls JSON_stringify [CallSet (VNum 3); EffectRun; CallReset; EffectRun]
      (shared_browser, loaded_store) = (b', p')
    /\ localStorage b' !! "counter"%string = Some "99"%string
    /\ localStorage b' !! "theme"%string = Some "true"%string.
Proof.
  destruct (apply_calls JSON_stringify [CallSet (VNum 3); EffectRun; CallReset; EffectRun]
              (shared_browser, loaded_store)) as [b' p'] eqn:Hcalls.
  exists b', p'. split; [reflexivity|].
  destruct (store_writes_only_its_key jsval _ JSON_stringify _ _ _ _ _ Hcalls)
    as [Hother _].
  split.
  - vm_compute in Hcalls. injection Hcalls as <- _. reflexivity.
  - rewrite (Hother "theme"%string) by discriminate. reflexivity.
Defined.

End PersistentStoreFacts.

(** ** Resource *)

Module ResourceFacts.
Import Resource.

Section WithTypes.
Context {T E : Type}.

Lemma run_app (tr1 tr2 : list (event T E)) (r : Resource T E) :
  run (tr1 ++ tr2) r = match run tr1 r with Some r' => run tr2 r' | None => None end.
Proof.
  revert r. induction tr1 as [|ev tr1 IH]; intros r; simpl; [reflexivity|].
  destruct (step r ev); [apply IH | reflexivity].
Qed.

Lemma settle_some (call : nat) (outcome : T + E) (r r' : Resource T E) :
  settle call outcome r = Some r' ->
  call ∈ in_flight r
  /\ loading r' = false
  /\ data r' = match outcome with inl v => Some v | inr _ => data r end
  /\ error r' = match outcome with inl _ => error r | inr e => Some e end
  /\ fetch_calls r' = fetch_calls r
  /\ effect_pending r' = effect_pending r.
Proof.
  unfold settle. case_bool_decide as Hin; [|discriminate].
  intros [= <-]. cbn. repeat split; try reflexivity. exact Hin.
Qed.

Lemma settle_in_flight (call : nat) (outcome : T + E) (r : Resource T E) :
  call ∈ in_flight r -> is_Some (settle call outcome r).
Proof. unfold settle. intros Hin. rewrite bool_decide_eq_true_2 by exact Hin. eauto. Qed.

(** *** The loading flag *)

Lemma step_loading_sound (ev : event T E) (r r' : Resource T E) :
  loading_sound r -> step r ev = Some r' -> loading_sound r'.
Proof.
  unfold loading_sound. intros Hinv Hstep. destruct ev as [| |call outcome|]; simpl in Hstep.
  - injection Hstep as <-. exact Hinv.
  - injection Hstep as <-. unfold run_effect.
    destruct (effect_pending r); [|exact Hinv].
    cbn. intros _. split; [reflexivity|]. split; [lia|].
    rewrite Nat.sub_0_r.
    apply elem_of_app. right. apply list_elem_of_singleton. reflexivity.
  - apply settle_some in Hstep as (_ & Hl & _). rewrite Hl. discriminate.
  - injection Hstep as <-. exact Hinv.
Qed.

Lemma run_loading_sound (tr : list (event T E)) (r r' : Resource T E) :
  loading_sound r -> run tr r = Some r' -> loading_sound r'.
Proof.
  revert r. induction tr as [|ev tr IH]; intros r Hinv; simpl.
  - intros [= <-]. exact Hinv.
  - destruct (step r ev) as [r1|] eqn:Hstep; [|discriminate].
    apply IH. eapply step_loading_sound; eassumption.
Qed.

(** *** Before the first completion *)

Lemma run_unsettled (tr : list (event T E)) (r r' : Resource T E) :
  forallb (fun ev => negb (is_settle ev)) tr = true ->
  run tr r = Some r' ->
  data r' = data r /\ (error r = None -> error r' = None).
Proof.
  revert r. induction tr as [|ev tr IH]; intros r Hns; simpl.
  - intros [= <-]. auto.
  - simpl in Hns. apply andb_true_iff in Hns as [Hev Hns].
    destruct ev as [| |call outcome|]; simpl in *; try discriminate.
    + intros Hrun. apply (IH _ Hns) in Hrun. exact Hrun.
    + intros Hrun. apply (IH _ Hns) in Hrun as [Hd He].
      unfold run_effect in *. destruct (effect_pending r); cbn in *; auto.
    + intros Hrun. apply (IH _ Hns) in Hrun. exact Hrun.
Qed.

(** *** The producer *)

Lemma step_fetch_calls (ev : event T E) (r r' : Resource T E) :
  step r ev = Some r' ->
  (fetch_calls r <= fetch_calls r')%nat
  /\ (is_run_effect ev = false -> fetch_calls r' = fetch_calls r)
  /\ (effect_due r -> effect_due r')
  /\ (is_run_effect ev = true -> effect_due r -> (0 < fetch_calls r')%nat).
Proof.
  unfold effect_due. destruct ev as [| |call outcome|]; simpl.
  - intros [= <-]. cbn.
    split; [lia|]. split; [reflexivity|]. split; [auto | discriminate].
  - intros [= <-]. unfold run_effect.
    destruct (effect_pending r) eqn:Hp; cbn.
    + split; [lia|]. split; [discriminate|]. split; intros; [right|]; lia.
    + rewrite Hp.
      split; [lia|]. split; [reflexivity|]. split; [auto|].
      intros _ [Hf | Hpos]; [discriminate | exact Hpos].
  - intros Hs. apply settle_some in Hs as (_ & _ & _ & _ & Hf & Hp).
    rewrite Hf, Hp.
    split; [lia|]. split; [reflexivity|]. split; [auto | discriminate].
  - intros [= <-]. cbn.
    split; [lia|]. split; [reflexivity|]. split; [auto | discriminate].
Qed.

Lemma run_fetch_calls (tr : list (event T E)) (r r' : Resource T E) :
  effect_due r ->
  run tr r = Some r' ->
  (fetch_calls r <= fetch_calls r')%nat
  /\ (forallb (fun ev => negb (is_run_effect ev)) tr = true ->
      fetch_calls r' = fetch_calls r)
  /\ (forallb (fun ev => negb (is_run_effect ev)) tr = false ->
      (0 < fetch_calls r')%nat).
Proof.
  revert r. induction tr as [|ev tr IH]; intros r Hdue; simpl.
  - intros [= <-]. split; [lia|]. split; [reflexivity | discriminate].
  - destruct (step r ev) as [r1|] eqn:Hstep; [|discriminate].
    intros Hrun.
    destruct (step_fetch_calls ev r r1 Hstep) as (Hle & Hsame & Hdue' & Hpos).
    destruct (IH r1 (Hdue' Hdue) Hrun) as (Hle' & Hsame' & Hpos').
    split; [lia|]. split.
    + intros Hall. apply andb_true_iff in Hall as [Hev Hall].
      rewrite (Hsame' Hall). apply Hsame. apply negb_true_iff, Hev.
    + intros Hsome. destruct (is_run_effect ev) eqn:Hev; simpl in Hsome.
      * specialize (Hpos eq_refl Hdue). lia.
      * specialize (Hpos' Hsome). exact Hpos'.
Qed.

End WithTypes.

(** C1, as amended.  A resource starts with [data() == null],
    [loading() == false], [error() == null] and the producer not
    invoked.  The producer is invoked from the first run of the loading
    effect on, and that run is scheduled by construction, not by
    [refresh()]: it sets [loading()] and invokes the producer with the
    trigger still at 0. *)
Theorem createResource_initial_state (T E : Type) :
  let r0 : Resource T E := createResource in
  data r0 = None /\ loading r0 = false /\ error r0 = None
  /\ fetch_calls r0 = 0%nat
  /\ (forall tr r, run tr r0 = Some r ->
        (fetch_calls r = 0%nat
         <-> forallb (fun ev => negb (is_run_effect ev)) tr = true))
  /\ loading (run_effect r0) = true
  /\ fetch_calls (run_effect r0) = 1%nat
  /\ refreshTrigger (run_effect r0) = 0%nat.
Proof.
  cbv zeta. repeat (split; [reflexivity|]).
  split; [|repeat split; reflexivity].
  intros tr r Hrun.
  assert (Hdue : effect_due (@createResource T E)) by (left; reflexivity).
  destruct (run_fetch_calls tr _ r Hdue Hrun) as (_ & Hsame & Hpos).
  destruct (forallb (fun ev => negb (is_run_effect ev)) tr).
  - split; [reflexivity|]. intros _. apply Hsame. reflexivity.
  - specialize (Hpos eq_refl). split; [lia | discriminate].
Qed.

Lemma createResource_initial_state_witness :
  run [Refresh; RunEffect] (@createResource Z string)
  = Some (run_effect (refresh createResource))
  /\ fetch_calls (run_effect (refresh (@createResource Z string))) <> 0%nat.
Proof.
  split; [reflexivity|].
  destruct (createResource_initial_state Z string) as (_ & _ & _ & _ & H & _).
  intros Hzero. apply (H [Refresh; RunEffect] _ eq_refl) in Hzero. discriminate.
Defined.

(** C1 as stated fails: with no [refresh()] at all, the first run of the
    effect invokes the producer. *)
Lemma producer_invoked_without_refresh_counterexample :
  let tr : list (event Z string) := [RunEffect] in
  forallb (fun ev => negb (is_refresh ev)) tr = true
  /\ exists r, run tr createResource = Some r
               /\ fetch_calls r = 1%nat /\ loading r = true
               /\ refreshTrigger r = 0%nat.
Proof. cbn. split; [reflexivity|]. eexists. repeat split; reflexivity. Qed.

(** C2, as amended.  After any sequence of [refresh()] calls, effect runs
    and load completions: while [loading()] is true, [error()] is null
    and the load started last is still in flight; and as long as no load
    has completed, [data()] and [error()] are both null. *)
Theorem resource_state_invariant (T E : Type) (tr : list (event T E))
    (r : Resource T E) :
  run tr createResource = Some r ->
  (loading r = true ->
     error r = None /\ (0 < fetch_calls r)%nat
     /\ (fetch_calls r - 1)%nat ∈ in_flight r)
  /\ (forallb (fun ev => negb (is_settle ev)) tr = true ->
      data r = None /\ error r = None).
Proof.
  intros Hrun. split.
  - apply (run_loading_sound tr createResource r); [|exact Hrun].
    intros Hl. discriminate.
  - intros Hns. destruct (run_unsettled tr _ r Hns Hrun) as [Hd He].
    split; [exact Hd | apply He; reflexivity].
Qed.

Lemma resource_state_invariant_witness :
  let tr : list (event Z string) := [RunEffect; Refresh; RunEffect] in
  exists r, run tr createResource = Some r
            /\ loading r = true /\ error r = None /\ data r = None
            /\ (fetch_calls r - 1)%nat ∈ in_flight r.
Proof.
  cbv zeta. eexists. split; [reflexivity|].
  destruct (resource_state_invariant Z string [RunEffect; Refresh; RunEffect] _ eq_refl)
    as [Hloading Hidle].
  destruct (Hloading eq_refl) as (He & _ & Hin).
  destruct (Hidle eq_refl) as (Hd & _).
  auto.
Defined.

(** C2 as stated fails: [refresh()] does not clear [data()], so after a
    successful load it is non-null while the next load is in flight, and
    it stays next to a non-null [error()] when that load fails. *)
Lemma stale_data_counterexample :
  let tr : list (event Z string) :=
    [RunEffect; Settle 0 (inl 7); Refresh; RunEffect] in
  (exists r, run tr createResource = Some r
             /\ loading r = true /\ data r = Some 7)
  /\ (exists r, run (tr ++ [Settle 1 (inr "boom"%string)]) createResource = Some r
                /\ loading r = false
                /\ data r = Some 7 /\ error r = Some "boom"%string).
Proof. cbv zeta. split; eexists; (split; [vm_compute; reflexivity|]); auto. Qed.

(** C3, as amended.  Completions carry no generation token and are
    applied in the order in which they arrive: when a load that was
    started earlier completes after one that was started later, its
    outcome overwrites [data()] (or [error()]) and clears [loading()];
    the completion that arrives last wins. *)
Theorem last_completion_wins (T E : Type) (r : Resource T E)
    (earlier later : nat) (o_earlier o_later : T + E) :
  (earlier < later)%nat ->
  earlier ∈ in_flight r ->
  later ∈ in_flight r ->
  exists r1 r2,
    settle later o_later r = Some r1
    /\ settle earlier o_earlier r1 = Some r2
    /\ run [Settle later o_later; Settle earlier o_earlier] r = Some r2
    /\ loading r2 = false
    /\ match o_earlier with
       | inl v => data r2 = Some v
       | inr e => error r2 = Some e
       end.
Proof.
  intros Hlt Hin0 Hin1.
  destruct (settle_in_flight later o_later r Hin1) as [r1 H1].
  assert (Hin0' : earlier ∈ in_flight r1).
  { unfold settle in H1. rewrite bool_decide_eq_true_2 in H1 by exact Hin1.
    injection H1 as <-. cbn.
    apply list_elem_of_In, filter_In. split; [apply list_elem_of_In, Hin0|].
    apply negb_true_iff, Nat.eqb_neq. lia. }
  destruct (settle_in_flight earlier o_earlier r1 Hin0') as [r2 H2].
  exists r1, r2. split; [exact H1|]. split; [exact H2|].
  split; [simpl; rewrite H1; simpl; rewrite H2; reflexivity|].
  apply settle_some in H2 as (_ & Hl & Hd & He & _).
  split; [exact Hl|]. destruct o_earlier; assumption.
Qed.

Lemma last_completion_wins_witness :
  (0 < 1)%nat /\ 0%nat ∈ in_flight two_in_flight /\ 1%nat ∈ in_flight two_in_flight
  /\ exists r2,
      run [Settle 1 (inl 20); Settle 0 (inl 10)] two_in_flight = Some r2
      /\ loading r2 = false /\ data r2 = Some 10.
Proof.
  assert (H0 : 0%nat ∈ in_flight two_in_flight) by (apply list_elem_of_In; cbn; tauto).
  assert (H1 : 1%nat ∈ in_flight two_in_flight) by (apply list_elem_of_In; cbn; tauto).
  split; [lia|]. split; [exact H0|]. split; [exact H1|].
  destruct (last_completion_wins Z string two_in_flight 0 1 (inl 10) (inl 20)
              ltac:(lia) H0 H1) as (r1 & r2 & _ & _ & Hrun & Hl & Hd).
  exists r2. auto.
Defined.

(** C3 as stated fails: the first load's completion arrives after the
    second load has completed and overwrites its result. *)
Lemma stale_completion_counterexample :
  let tr : list (event Z string) :=
    [RunEffect; Refresh; RunEffect; Settle 1 (inl 20); Settle 0 (inl 10)] in
  exists r, run tr createResource = Some r
            /\ fetch_calls r = 2%nat /\ data r = Some 10 /\ loading r = false.
Proof. cbv zeta. eexists. split; [vm_compute; reflexivity|]. auto. Qed.

(** *** How often the producer is invoked *)

Section Invocations.
Context {T E : Type}.

Lemma run_refreshes (n : nat) (r : Resource T E) :
  (1 <= n)%nat ->
  run (replicate n Refresh) r
  = Some {| data := data r; loading := loading r; error := error r;
            refreshTrigger := (refreshTrigger r + n)%nat;
            effect_pending := true;
            fetch_calls := fetch_calls r; in_flight := in_flight r |}.
Proof.
  revert r. induction n as [|n IH]; intros r Hn; [lia|].
  cbn [replicate run step].
  destruct n as [|n].
  - cbn. unfold refresh. do 2 f_equal. lia.
  - rewrite IH by lia. cbn. do 2 f_equal. lia.
Qed.

Lemma step_invocations (ev : event T E) (r r' : Resource T E) :
  step r ev = Some r' ->
  (fetch_calls r' + Nat.b2n (effect_pending r')
   <= fetch_calls r + Nat.b2n (effect_pending r)
      + Nat.b2n (is_refresh ev) + Nat.b2n (is_dependency_change ev))%nat
  /\ (fetch_calls r' <= fetch_calls r + Nat.b2n (is_run_effect ev))%nat.
Proof.
  destruct ev as [| |call outcome|]; simpl.
  - intros [= <-]. cbn. destruct (effect_pending r); cbn; lia.
  - intros [= <-]. unfold run_effect. destruct (effect_pending r) eqn:Hp; cbn.
    + lia.
    + rewrite Hp. cbn. lia.
  - intros Hs. apply settle_some in Hs as (_ & _ & _ & _ & Hf & Hp).
    rewrite Hf, Hp. lia.
  - intros [= <-]. cbn. destruct (effect_pending r); cbn; lia.
Qed.

Lemma run_invocations (tr : list (event T E)) (r r' : Resource T E) :
  run tr r = Some r' ->
  (fetch_calls r' + Nat.b2n (effect_pending r')
   <= fetch_calls r + Nat.b2n (effect_pending r)
      + refreshes tr + dependency_changes tr)%nat
  /\ (fetch_calls r' <= fetch_calls r + effect_runs tr)%nat.
Proof.
  revert r. induction tr as [|ev tr IH]; intros r; simpl.
  - intros [= <-]. unfold refreshes, dependency_changes, effect_runs. cbn. lia.
  - destruct (step r ev) as [r1|] eqn:Hstep; [|discriminate].
    intros Hrun. apply IH in Hrun as [H1 H2].
    apply step_invocations in Hstep as [H3 H4].
    unfold refreshes, dependency_changes, effect_runs in *. cbn [List.filter].
    destruct (is_refresh ev), (is_dependency_change ev), (is_run_effect ev);
      cbn in *; lia.
Qed.

End Invocations.

(** X15.  Calls of [refresh()] are batched: however many are made before
    the effect runs, that run invokes the producer once. *)
Theorem refreshes_are_batched (T E : Type) (r : Resource T E) (n : nat) :
  (1 <= n)%nat ->
  exists r',
    run (replicate n Refresh ++ [RunEffect]) r = Some r'
    /\ fetch_calls r' = S (fetch_calls r)
    /\ refreshTrigger r' = (refreshTrigger r + n)%nat
    /\ loading r' = true.
Proof.
  intros Hn. eexists. split.
  - rewrite run_app, (run_refreshes n r Hn). cbn. reflexivity.
  - cbn. auto.
Qed.

Lemma refreshes_are_batched_witness :
  (1 <= 3)%nat
  /\ exists r',
      run [Refresh; Refresh; Refresh; RunEffect] (run_effect (@createResource Z string))
      = Some r'
      /\ fetch_calls r' = 2%nat.
Proof.
  split; [lia|].
  destruct (refreshes_are_batched Z string (run_effect createResource) 3 ltac:(lia))
    as (r' & Hrun & Hcalls & _).
  exists r'. split; [exact Hrun | exact Hcalls].
Defined.

(** X16.  The producer is invoked at most once per effect run, and at
    most once more than the effect has been scheduled again, by
    [refresh()] or by a change of a signal the producer read. *)
Theorem producer_invocations_bounded (T E : Type) (tr : list (event T E))
    (r : Resource T E) :
  run tr createResource = Some r ->
  (fetch_calls r <= 1 + refreshes tr + dependency_changes tr)%nat
  /\ (fetch_calls r <= effect_runs tr)%nat.
Proof.
  intros Hrun. apply run_invocations in Hrun as [H1 H2]. cbn in H1, H2.
  split; lia.
Qed.

Lemma producer_invocations_bounded_witness :
  let tr : list (event Z string) :=
    [RunEffect; RunEffect; Refresh; Refresh; RunEffect; Settle 1 (inl 4);
     DependencyChanged; RunEffect; RunEffect] in
  exists r, run tr createResource = Some r
            /\ fetch_calls r = 3%nat /\ refreshes tr = 2%nat
            /\ dependency_changes tr = 1%nat /\ effect_runs tr = 5%nat.
Proof.
  cbv zeta. eexists. split; [vm_compute; reflexivity|].
  pose proof (producer_invocations_bounded Z string
    [RunEffect; RunEffect; Refresh; Refresh; RunEffect; Settle 1 (inl 4);
     DependencyChanged; RunEffect; RunEffect]
    _ eq_refl) as [_ _].
  repeat split; reflexivity.
Defined.

End ResourceFacts.

(** ** Debounced signal *)

Module DebounceFacts.
Import Runtime Debounce.

Section WithValue.
Context {T : Type} `{EqDecision T}.

Lemma lookup_clear_pending (oid : option nat) (tm : gmap nat (Z * T))
    (i : nat) (x : Z * T) :
  clear_pending oid tm !! i = Some x ->
  tm !! i = Some x /\ (oid = Some i -> i = 0%nat).
Proof.
  unfold clear_pending. destruct oid as [[|n]|].
  - intros Hl. split; [exact Hl|]. intros [= <-]. reflexivity.
  - intros Hl. apply lookup_delete_Some in Hl as [Hne Hl].
    split; [exact Hl|]. intros [= Heq]. congruence.
  - intros Hl. split; [exact Hl | discriminate].
Qed.

Lemma rapid_cons (d : Z) (w1 w2 : Z * T) (ws : list (Z * T)) :
  rapid d (w1 :: w2 :: ws) <-> w2.1 - w1.1 < d /\ rapid d (w2 :: ws).
Proof. destruct w1, w2. reflexivity. Qed.

Lemma rapid_tail (d : Z) (w : Z * T) (ws : list (Z * T)) :
  rapid d (w :: ws) -> rapid d ws.
Proof.
  destruct ws as [|w2 ws]; [intros _; exact I|].
  intros Hr. apply rapid_cons in Hr. tauto.
Qed.

Lemma last_writes_from (lastw : option (Z * T)) (w : Z * T) (ws : list (Z * T)) :
  last (writes_from lastw (w :: ws)) = last (writes_from (Some w) ws).
Proof. destruct lastw; simpl; reflexivity. Qed.

Variable init : T.
Variable d : Z.

Lemma create_inv (t0 : Z) : Inv init d None (createDebouncedSignal init d t0).
Proof.
  split; cbn.
  - reflexivity.
  - reflexivity.
  - discriminate.
  - lia.
  - intros id due v Hl. rewrite lookup_empty in Hl. discriminate.
  - left. split; reflexivity.
Qed.

Lemma write_inv (lastw : option (Z * T)) (s : Debounced T) (t : Z) (v : T) :
  Inv init d lastw s ->
  now s <= t ->
  (input s <> v -> forall tl vl, lastw = Some (tl, vl) -> t - tl < d) ->
  Inv init d (next_last (input s) lastw (Write t v)) (write t v s).
Proof.
  intros [Hd Hin Hnow Hnext Htm Hch] Ht Hgap.
  unfold write, signal_set, next_last. case_bool_decide as Heq.
  - (* the input already holds [v] *)
    split; cbn.
    + exact Hd.
    + exact Hin.
    + intros tl vl Hl. specialize (Hnow tl vl Hl). lia.
    + exact Hnext.
    + rewrite orb_false_r. exact Htm.
    + rewrite orb_false_r. destruct Hch as [Hch | (t1 & tl & H1 & H2 & H3 & H4 & H5)].
      * left. exact Hch.
      * right. exists t1, tl. repeat split; try assumption. lia.
  - (* the input changes *)
    split; cbn.
    + exact Hd.
    + reflexivity.
    + intros tl vl [= <- <-]. lia.
    + exact Hnext.
    + intros id due v0 Hl. destruct (Htm id due v0 Hl) as (H1 & H2 & H3 & H4 & _).
      split; [exact H1|]. split; [exact H2|]. split; [exact H3|]. split; [exact H4|].
      rewrite H4, orb_true_r. discriminate.
    + destruct Hch as [Hch | (t1 & tl & H1 & H2 & H3 & H4 & H5)].
      * left. exact Hch.
      * specialize (Hgap Heq tl _ H2). lia.
Qed.

Lemma run_effect_inv (lastw : option (Z * T)) (s : Debounced T) (t : Z) :
  Inv init d lastw s ->
  now s <= t ->
  Inv init d lastw (run_effect t s).
Proof.
  intros [Hd Hin Hnow Hnext Htm Hch] Ht.
  unfold run_effect. destruct (effect_pending s && alive s) eqn:Hrun.
  - apply andb_true_iff in Hrun as [Hp Ha].
    split; cbn.
    + exact Hd.
    + exact Hin.
    + intros tl vl Hl. specialize (Hnow tl vl Hl). lia.
    + lia.
    + intros id due v Hl.
      apply lookup_insert_Some in Hl as [[<- [= <- <-]] | [Hne Hl]].
      * repeat split; try reflexivity; try assumption.
        intros tl vl Hl. specialize (Hnow tl vl Hl). rewrite Hd. lia.
      * exfalso.
        apply lookup_clear_pending in Hl as [Hl Hid].
        assert (Hl' : timers s !! id = Some (due, v)).
        { destruct (cleanup s); [|exact Hl].
          apply lookup_clear_pending in Hl. tauto. }
        destruct (Htm id due v Hl') as (H1 & H2 & _).
        specialize (Hid H1). lia.
    + destruct Hch as [Hch | (t1 & tl & H1 & H2 & H3 & H4 & H5)].
      * left. exact Hch.
      * congruence.
  - split; cbn.
    + exact Hd.
    + exact Hin.
    + intros tl vl Hl. specialize (Hnow tl vl Hl). lia.
    + exact Hnext.
    + exact Htm.
    + destruct Hch as [Hch | (t1 & tl & H1 & H2 & H3 & H4 & H5)].
      * left. exact Hch.
      * right. exists t1, tl. repeat split; try assumption. lia.
Qed.

Lemma fire_inv (lastw : option (Z * T)) (s : Debounced T) (t : Z) (id : nat)
    (due : Z) (value : T) :
  Inv init d lastw s ->
  now s <= t ->
  timers s !! id = Some (due, value) ->
  due <= t ->
  effect_pending s = false ->
  Inv init d lastw (fire t id value s).
Proof.
  intros [Hd Hin Hnow Hnext Htm Hch] Ht Hl Hdue Hp.
  destruct (Htm id due value Hl) as (_ & _ & _ & _ & Hv).
  destruct (Hv Hp) as [Hval Hlate].
  unfold fire, signal_set. case_bool_decide as Heq.
  - (* the output already holds the value *)
    split; cbn.
    + exact Hd.
    + exact Hin.
    + intros tl vl Hlw. specialize (Hnow tl vl Hlw). lia.
    + exact Hnext.
    + intros id' due' v' Hl'. apply lookup_delete_Some in Hl' as [_ Hl'].
      exact (Htm id' due' v' Hl').
    + destruct Hch as [Hch | (t1 & tl & H1 & H2 & H3 & H4 & H5)].
      * left. exact Hch.
      * right. exists t1, tl. repeat split; try assumption. lia.
  - (* the output changes *)
    split; cbn.
    + exact Hd.
    + exact Hin.
    + intros tl vl Hlw. specialize (Hnow tl vl Hlw). lia.
    + exact Hnext.
    + intros id' due' v' Hl'. apply lookup_delete_Some in Hl' as [_ Hl'].
      exact (Htm id' due' v' Hl').
    + destruct Hch as [[Hnil Hout] | (t1 & tl & H1 & H2 & H3 & H4 & H5)].
      * right. rewrite Hnil. cbn.
        destruct lastw as [[tl vl]|]; cbn in Hin.
        -- exists t, tl. split; [reflexivity|].
           split; [congruence|]. split; [|split; [lia | exact Hp]].
           specialize (Hlate tl vl eq_refl). lia.
        -- congruence.
      * exfalso. rewrite H2 in Hin. cbn in Hin. congruence.
Qed.

Lemma destroy_inv (lastw : option (Z * T)) (s : Debounced T) (t : Z) :
  Inv init d lastw s ->
  now s <= t ->
  Inv init d lastw (destroy t s).
Proof.
  intros [Hd Hin Hnow Hnext Htm Hch] Ht.
  split; cbn.
  - exact Hd.
  - exact Hin.
  - intros tl vl Hlw. specialize (Hnow tl vl Hlw). lia.
  - exact Hnext.
  - intros id due v Hl. exfalso.
    destruct (cleanup s && alive s) eqn:Hca.
    + apply lookup_clear_pending in Hl as [Hl Hid].
      destruct (Htm id due v Hl) as (H1 & H2 & _).
      specialize (Hid H1). lia.
    + destruct (Htm id due v Hl) as (_ & _ & H3 & H4 & _).
      rewrite H3, H4 in Hca. discriminate.
  - destruct Hch as [Hch | (t1 & tl & H1 & H2 & H3 & H4 & H5)].
    + left. exact Hch.
    + right. exists t1, tl. repeat split; try assumption. lia.
Qed.

Lemma step_inv (lastw : option (Z * T)) (s s' : Debounced T) (ev : event T) :
  Inv init d lastw s ->
  step s ev = Some s' ->
  (forall t id, ev = Fire t id -> effect_pending s = false) ->
  (forall t v, ev = Write t v -> input s <> v ->
     forall tl vl, lastw = Some (tl, vl) -> t - tl < d) ->
  Inv init d (next_last (input s) lastw ev) s'.
Proof.
  intros Hinv Hstep Hfirst Hgap. unfold step in Hstep.
  destruct (Z.ltb_spec (time_of ev) (now s)) as [|Ht]; [discriminate|].
  destruct ev as [t v | t | t id | t]; cbn in Ht.
  - injection Hstep as <-. apply write_inv; [assumption | assumption |].
    intros Hne. exact (Hgap t v eq_refl Hne).
  - injection Hstep as <-. apply run_effect_inv; assumption.
  - destruct (timers s !! id) as [[due value]|] eqn:Hl; [|discriminate].
    destruct (Z.leb_spec due t) as [Hdue|]; [|discriminate].
    pose proof (Hfirst t id eq_refl) as Hp.
    injection Hstep as <-. eapply fire_inv; eassumption.
  - injection Hstep as <-. apply destroy_inv; assumption.
Qed.

Lemma step_input (s s' : Debounced T) (ev : event T) :
  step s ev = Some s' ->
  input s' = match ev with Write _ v => v | _ => input s end.
Proof.
  unfold step. destruct (time_of ev <? now s); [discriminate|].
  destruct ev as [t v | t | t id | t].
  - intros [= <-]. unfold write, signal_set. case_bool_decide; cbn; congruence.
  - intros [= <-]. unfold run_effect. destruct (effect_pending s && alive s); reflexivity.
  - destruct (timers s !! id) as [[due value]|]; [|discriminate].
    destruct (due <=? t); [|discriminate].
    intros [= <-]. unfold fire, signal_set. case_bool_decide; reflexivity.
  - intros [= <-]. reflexivity.
Qed.

(** The invariant along a whole trace whose changing writes are rapid
    and whose effects run before the timeouts fire. *)
Lemma run_inv (tr : list (event T)) (lastw : option (Z * T)) (s s' : Debounced T) :
  Inv init d lastw s ->
  run tr s = Some s' ->
  effects_first tr s ->
  rapid d (writes_from lastw (changing_writes (input s) tr)) ->
  Inv init d (last (writes_from lastw (changing_writes (input s) tr))) s'.
Proof.
  revert lastw s. induction tr as [|ev tr IH]; intros lastw s Hinv Hrun Hfirst Hrapid.
  - injection Hrun as <-. cbn.
    destruct lastw as [w|]; cbn; exact Hinv.
  - cbn in Hrun. destruct (step s ev) as [s1|] eqn:Hstep; [|discriminate].
    cbn [effects_first] in Hfirst. rewrite Hstep in Hfirst.
    destruct Hfirst as [Hnow Hfirst].
    assert (Hfire : forall t id, ev = Fire t id -> effect_pending s = false)
      by (intros t id ->; exact Hnow).
    pose proof (step_input s s1 ev Hstep) as Hin1.
    destruct ev as [t v | t | t id | t];
      try (pose proof (step_inv _ _ _ _ Hinv Hstep Hfire ltac:(discriminate)) as Hinv1;
           specialize (IH _ _ Hinv1 Hrun Hfirst); rewrite Hin1 in IH;
           apply IH; exact Hrapid).
    cbn [changing_writes] in Hrapid |- *.
    case_bool_decide as Heq.
    + (* a write of the value the input holds *)
      assert (Hinv1 : Inv init d lastw s1).
      { pose proof (step_inv _ _ _ _ Hinv Hstep Hfire) as Hs.
        cbn in Hs. rewrite bool_decide_eq_true_2 in Hs by exact Heq.
        apply Hs. intros t' v' [= <- <-] Hne. contradiction. }
      specialize (IH _ _ Hinv1 Hrun Hfirst). rewrite Hin1, <- Heq in IH.
      apply IH. exact Hrapid.
    + (* a write that changes the input *)
      assert (Hinv1 : Inv init d (Some (t, v)) s1).
      { pose proof (step_inv _ _ _ _ Hinv Hstep Hfire) as Hs.
        cbn in Hs. rewrite bool_decide_eq_false_2 in Hs by exact Heq.
        apply Hs. intros t' v' [= <- <-] _ tl vl ->.
        unfold writes_from in Hrapid. apply rapid_cons in Hrapid.
        exact (proj1 Hrapid). }
      specialize (IH _ _ Hinv1 Hrun Hfirst). rewrite Hin1 in IH.
      rewrite last_writes_from. apply IH.
      destruct lastw as [w|]; [|exact Hrapid].
      eapply rapid_tail. exact Hrapid.
Qed.

End WithValue.

(** C8, as amended.  For every trace of a debounced signal in which the
    consecutive writes that change the input's value are strictly less
    than the delay [d] apart (a write of the value the input already
    holds is a no-op and does not restart the timer) and in which the
    effect scheduled by a write runs before a timeout fires, the output
    changes at most once, to the last written value, and no earlier than
    [d] after the last such write. *)
Theorem debounced_output_settles_once (T : Type) (EqT : EqDecision T)
    (initialValue : T) (d t0 : Z) (tr : list (event T)) (s : Debounced T) :
  run tr (createDebouncedSignal initialValue d t0) = Some s ->
  effects_first tr (createDebouncedSignal initialValue d t0) ->
  rapid d (changing_writes initialValue tr) ->
  settles_once d (changing_writes initialValue tr) (changes s).
Proof.
  intros Hrun Hfirst Hrapid.
  pose proof (run_inv initialValue d tr None _ s (create_inv initialValue d t0)
                Hrun Hfirst Hrapid) as Hinv.
  cbn in Hinv. destruct Hinv as [_ _ _ _ _ Hch].
  destruct Hch as [[Hnil _] | (t & tl & H1 & H2 & H3 & _)].
  - left. exact Hnil.
  - right. exists t, (output s), tl. auto.
Qed.

Lemma debounced_output_settles_once_witness :
  rapid 300 (changing_writes ""%string typing_trace)
  /\ effects_first typing_trace (createDebouncedSignal ""%string 300 0)
  /\ exists s,
      run typing_trace (createDebouncedSignal ""%string 300 0) = Some s
      /\ changes s = [(550, "hel"%string)]
      /\ settles_once 300 (changing_writes ""%string typing_trace) (changes s).
Proof.
  assert (Hrapid : rapid 300 (changing_writes ""%string typing_trace))
    by (vm_compute; auto).
  assert (Hfirst : effects_first typing_trace (createDebouncedSignal ""%string 300 0))
    by (vm_compute; auto 20).
  split; [exact Hrapid|]. split; [exact Hfirst|].
  eexists. split; [vm_compute; reflexivity|]. split; [reflexivity|].
  apply (debounced_output_settles_once string _ ""%string 300 0 typing_trace);
    [vm_compute; reflexivity | exact Hfirst | exact Hrapid].
Defined.

(** C8 as stated fails when a write repeats the value the input holds:
    it does not restart the timer, so the output changes less than [d]
    after it, and a later write changes the output a second time.  It
    also fails when a timeout that is due fires before the effect
    scheduled by a later write has run: the output changes twice. *)
Lemma repeated_write_counterexample :
  (rapid 10 (writes_of repeated_write_trace)
   /\ last (writes_of repeated_write_trace) = Some (9, "a"%string)
   /\ exists s,
       run repeated_write_trace (createDebouncedSignal ""%string 10 0) = Some s
       /\ changes s = [(10, "a"%string)]
       /\ ~ settles_once 10 (writes_of repeated_write_trace) (changes s))
  /\ (rapid 10 (writes_of repeated_then_new_trace)
      /\ exists s,
          run repeated_then_new_trace (createDebouncedSignal ""%string 10 0) = Some s
          /\ changes s = [(10, "a"%string); (28, "b"%string)]
          /\ ~ settles_once 10 (writes_of repeated_then_new_trace) (changes s))
  /\ (rapid 10 (writes_of overtaking_trace)
      /\ exists s,
          run overtaking_trace (createDebouncedSignal ""%string 10 0) = Some s
          /\ changes s = [(10, "a"%string); (20, "b"%string)]
          /\ ~ settles_once 10 (writes_of overtaking_trace) (changes s)).
Proof.
  split; [|split].
  - split; [vm_compute; auto|]. split; [reflexivity|].
    eexists. split; [vm_compute; reflexivity|]. split; [reflexivity|].
    intros [Hnil | (t & v & tl & Hch & Hlast & Hle)]; [discriminate|].
    cbn in Hch, Hlast. injection Hch as <- <-. injection Hlast as <-. lia.
  - split; [vm_compute; auto|].
    eexists. split; [vm_compute; reflexivity|]. split; [reflexivity|].
    intros [Hnil | (t & v & tl & Hch & _)]; discriminate.
  - split; [vm_compute; auto|].
    eexists. split; [vm_compute; reflexivity|]. split; [reflexivity|].
    intros [Hnil | (t & v & tl & Hch & _)]; discriminate.
Qed.

(** *** Any trace *)

Section AnyTrace.
Context {T : Type} `{EqDecision T}.

Lemma create_owned (initialValue : T) (d t0 : Z) :
  Owned (createDebouncedSignal initialValue d t0).
Proof.
  split; cbn; [lia|]. intros id due v Hl. rewrite lookup_empty in Hl. discriminate.
Qed.

Lemma step_owned (s s' : Debounced T) (ev : event T) :
  Owned s -> step s ev = Some s' -> Owned s'.
Proof.
  intros [Hnext Htm] Hstep. unfold step in Hstep.
  destruct (time_of ev <? now s); [discriminate|].
  destruct ev as [t v | t | t id | t].
  - injection Hstep as <-. unfold write, signal_set.
    case_bool_decide as Heq; split; cbn; try exact Hnext.
    + rewrite orb_false_r. exact Htm.
    + intros id due v0 Hl. destruct (Htm id due v0 Hl) as (H1 & H2 & H3 & H4 & _).
      split; [exact H1|]. split; [exact H2|]. split; [exact H3|]. split; [exact H4|].
      rewrite H4, orb_true_r. discriminate.
  - injection Hstep as <-. unfold run_effect.
    destruct (effect_pending s && alive s) eqn:Hrun; split; cbn;
      try exact Hnext; try exact Htm; [lia|].
    intros id due v Hl.
    apply lookup_insert_Some in Hl as [[<- [= <- <-]] | [Hne Hl]].
    + repeat split; try reflexivity. exact Hnext.
    + exfalso. apply lookup_clear_pending in Hl as [Hl Hid].
      assert (Hl' : timers s !! id = Some (due, v)).
      { destruct (cleanup s); [|exact Hl]. apply lookup_clear_pending in Hl. tauto. }
      destruct (Htm id due v Hl') as (H1 & H2 & _). specialize (Hid H1). lia.
  - destruct (timers s !! id) as [[due value]|] eqn:Hl; [|discriminate].
    destruct (due <=? t); [|discriminate].
    injection Hstep as <-. unfold fire, signal_set.
    case_bool_decide; split; cbn; try exact Hnext;
      intros id' due' v' Hl'; apply lookup_delete_Some in Hl' as [_ Hl'];
      exact (Htm id' due' v' Hl').
  - injection Hstep as <-. split; cbn; [exact Hnext|].
    intros id due v Hl. exfalso.
    destruct (cleanup s && alive s) eqn:Hca.
    + apply lookup_clear_pending in Hl as [Hl Hid].
      destruct (Htm id due v Hl) as (H1 & H2 & _). specialize (Hid H1). lia.
    + destruct (Htm id due v Hl) as (_ & _ & H3 & H4 & _).
      rewrite H3, H4 in Hca. discriminate.
Qed.

Lemma run_owned (tr : list (event T)) (s s' : Debounced T) :
  Owned s -> run tr s = Some s' -> Owned s'.
Proof.
  revert s. induction tr as [|ev tr IH]; intros s Hown; simpl.
  - intros [= <-]. exact Hown.
  - destruct (step s ev) as [s1|] eqn:Hstep; [|discriminate].
    apply IH. eapply step_owned; eassumption.
Qed.

Lemma destroy_dead (s : Debounced T) (t : Z) : Owned s -> Dead (destroy t s).
Proof.
  intros [_ Htm]. unfold Dead. cbn. split; [reflexivity|]. split; [reflexivity|].
  intros id. destruct (_ !! id) as [[due v]|] eqn:Hl; [exfalso|reflexivity].
  destruct (cleanup s && alive s) eqn:Hca.
  - apply lookup_clear_pending in Hl as [Hl Hid].
    destruct (Htm id due v Hl) as (H1 & H2 & _). specialize (Hid H1). lia.
  - destruct (Htm id due v Hl) as (_ & _ & H3 & H4 & _).
    rewrite H3, H4 in Hca. discriminate.
Qed.

Lemma step_dead (s s' : Debounced T) (ev : event T) :
  Dead s -> step s ev = Some s' ->
  Dead s' /\ output s' = output s /\ changes s' = changes s.
Proof.
  intros (Ha & Hp & Hnone) Hstep. unfold step in Hstep.
  destruct (time_of ev <? now s); [discriminate|].
  destruct ev as [t v | t | t id | t].
  - injection Hstep as <-. unfold write, signal_set, Dead.
    case_bool_decide; cbn; rewrite Ha, Hp; cbn; auto.
  - injection Hstep as <-. unfold run_effect, Dead. rewrite Hp. cbn. auto.
  - rewrite Hnone in Hstep. discriminate.
  - injection Hstep as <-. unfold destroy, Dead. cbn. rewrite Ha, andb_false_r. auto.
Qed.

Lemma run_dead (tr : list (event T)) (s s' : Debounced T) :
  Dead s -> run tr s = Some s' ->
  Dead s' /\ output s' = output s /\ changes s' = changes s.
Proof.
  revert s. induction tr as [|ev tr IH]; intros s Hdead; simpl.
  - intros [= <-]. auto.
  - destruct (step s ev) as [s1|] eqn:Hstep; [|discriminate].
    intros Hrun. destruct (step_dead s s1 ev Hdead Hstep) as (Hd1 & Ho1 & Hc1).
    destruct (IH s1 Hd1 Hrun) as (Hd & Ho & Hc).
    split; [exact Hd|]. split; congruence.
Qed.

End AnyTrace.

(** X17.  At any time at most one timeout is set: every effect run
    clears the timeout of the run before it. *)
Theorem at_most_one_timeout (T : Type) (EqT : EqDecision T) (initialValue : T)
    (d t0 : Z) (tr : list (event T)) (s : Debounced T) (id1 id2 : nat)
    (x1 x2 : Z * T) :
  run tr (createDebouncedSignal initialValue d t0) = Some s ->
  timers s !! id1 = Some x1 ->
  timers s !! id2 = Some x2 ->
  id1 = id2 /\ timeoutId s = Some id1.
Proof.
  intros Hrun H1 H2.
  destruct (run_owned tr _ s (create_owned initialValue d t0) Hrun) as [_ Htm].
  destruct x1 as [due1 v1], x2 as [due2 v2].
  destruct (Htm id1 due1 v1 H1) as (Hid1 & _).
  destruct (Htm id2 due2 v2 H2) as (Hid2 & _).
  split; [congruence | exact Hid1].
Qed.

Lemma at_most_one_timeout_witness :
  exists s,
    run one_letter_trace (createDebouncedSignal ""%string 300 0) = Some s
    /\ timers s !! 2%nat = Some (310, "h"%string)
    /\ timeoutId s = Some 2%nat
    /\ timers s !! 1%nat = None.
Proof.
  eexists. split; [vm_compute; reflexivity|].
  split; [reflexivity|]. split; [|reflexivity].
  eapply (at_most_one_timeout string _ ""%string 300 0 one_letter_trace _ 2 2);
    [vm_compute; reflexivity | reflexivity | reflexivity].
Defined.

(** X18.  When a timeout fires while no effect run is pending, the
    output takes the value the input holds at that moment: a stale value
    can reach the output only by a timeout that overtakes the effect run
    scheduled by a later write. *)
Theorem fired_output_is_input (T : Type) (EqT : EqDecision T) (initialValue : T)
    (d t0 : Z) (tr : list (event T)) (s s' : Debounced T) (t : Z) (id : nat) :
  run tr (createDebouncedSignal initialValue d t0) = Some s ->
  effect_pending s = false ->
  step s (Fire t id) = Some s' ->
  output s' = input s /\ input s' = input s.
Proof.
  intros Hrun Hp Hstep.
  destruct (run_owned tr _ s (create_owned initialValue d t0) Hrun) as [_ Htm].
  unfold step in Hstep. destruct (time_of (Fire t id) <? now s); [discriminate|].
  destruct (timers s !! id) as [[due value]|] eqn:Hl; [|discriminate].
  destruct (due <=? t); [|discriminate].
  injection Hstep as <-.
  destruct (Htm id due value Hl) as (_ & _ & _ & _ & Hv). specialize (Hv Hp).
  unfold fire, signal_set. case_bool_decide; cbn; split; congruence.
Qed.

Lemma fired_output_is_input_witness :
  exists s s',
    run one_letter_trace (createDebouncedSignal ""%string 300 0) = Some s
    /\ effect_pending s = false
    /\ step s (Fire 310 2) = Some s'
    /\ output s = ""%string /\ output s' = "h"%string.
Proof.
  eexists _, _. split; [vm_compute; reflexivity|]. split; [reflexivity|].
  split; [vm_compute; reflexivity|]. split; [reflexivity|].
  eapply eq_trans;
    [eapply (fired_output_is_input string _ ""%string 300 0 one_letter_trace _ _ 310 2);
     vm_compute; reflexivity
    | reflexivity].
Defined.

(** X19.  Once the owner is destroyed, the pending timeout is cleared and
    the output never changes again, whatever is written to the input
    afterwards. *)
Theorem destroyed_output_is_frozen (T : Type) (EqT : EqDecision T)
    (initialValue : T) (d t0 t : Z) (tr tr' : list (event T))
    (s s' : Debounced T) :
  run tr (createDebouncedSignal initialValue d t0) = Some s ->
  run (Destroy t :: tr') s = Some s' ->
  output s' = output s /\ changes s' = changes s
  /\ forall id, timers s' !! id = None.
Proof.
  intros Hrun Hrun'.
  pose proof (run_owned tr _ s (create_owned initialValue d t0) Hrun) as Hown.
  cbn [run] in Hrun'. destruct (step s (Destroy t)) as [s1|] eqn:Hstep; [|discriminate].
  assert (Hs1 : s1 = destroy t s).
  { unfold step in Hstep. destruct (time_of (Destroy t) <? now s); [discriminate|].
    congruence. }
  subst s1.
  destruct (run_dead tr' _ s' (destroy_dead s t Hown) Hrun') as ((_ & _ & Hnone) & Ho & Hc).
  cbn in Ho, Hc. auto.
Qed.

Lemma destroyed_output_is_frozen_witness :
  exists s s',
    run one_letter_trace (createDebouncedSignal ""%string 300 0) = Some s
    /\ run [Destroy 20; Write 30 "he"; RunEffect 30; Write 500 "hello"]%string s = Some s'
    /\ input s' = "hello"%string /\ output s' = ""%string /\ changes s' = [].
Proof.
  eexists _, _. split; [vm_compute; reflexivity|].
  split; [vm_compute; reflexivity|]. split; [reflexivity|].
  edestruct (destroyed_output_is_frozen string _ ""%string 300 0 20 one_letter_trace
               [Write 30 "he"; RunEffect 30; Write 500 "hello"]%string) as (Ho & Hc & _);
    [vm_compute; reflexivity | vm_compute; reflexivity |].
  split; [rewrite Ho | rewrite Hc]; reflexivity.
Defined.

(** X20.  A write that changes the input of a live debounced signal
    reaches the output: once the effect has run and its timeout has
    fired, no earlier than the delay after the effect run, the output
    holds the written value. *)
Theorem write_reaches_output (T : Type) (EqT : EqDecision T) (s : Debounced T)
    (v : T) (t t_effect t_fire : Z) :
  alive s = true ->
  input s <> v ->
  now s <= t -> t <= t_effect ->
  t_effect + Z.max 0 (delayMs s) <= t_fire ->
  exists s',
    run [Write t v; RunEffect t_effect; Fire t_fire (next_timer s)] s = Some s'
    /\ output s' = v /\ input s' = v.
Proof.
  intros Ha Hne Ht Hte Htf.
  cbn [run]. unfold step at 1. cbn [time_of].
  destruct (Z.ltb_spec t (now s)); [lia|].
  unfold write, signal_set. rewrite bool_decide_eq_false_2 by exact Hne.
  rewrite Ha, andb_true_r, orb_true_r.
  unfold step at 1. cbn [time_of now].
  destruct (Z.ltb_spec t_effect t); [lia|].
  unfold run_effect. cbn [effect_pending alive andb].
  cbn [input output delayMs timeoutId timers next_timer cleanup now changes].
  unfold step. cbn [time_of now timers].
  destruct (Z.ltb_spec t_fire t_effect); [lia|].
  rewrite lookup_insert_eq.
  destruct (Z.leb_spec (t_effect + Z.max 0 (delayMs s)) t_fire); [|lia].
  eexists. split; [reflexivity|].
  unfold fire, signal_set. case_bool_decide as Hout; cbn in Hout |- *; split; congruence.
Qed.

Lemma write_reaches_output_witness :
  let s := createDebouncedSignal ""%string 300 0 in
  alive s = true /\ input s <> "h"%string
  /\ exists s',
      run [Write 10 "h"%string; RunEffect 10; Fire 310 1] s = Some s'
      /\ output s' = "h"%string.
Proof.
  cbv zeta. split; [reflexivity|]. split; [discriminate|].
  destruct (write_reaches_output string _ (createDebouncedSignal ""%string 300 0)
              "h"%string 10 10 310 eq_refl ltac:(discriminate)
              ltac:(cbn; lia) ltac:(lia) ltac:(cbn; lia))
    as (s' & Hrun & Hout & _).
  exists s'. split; [exact Hrun | exact Hout].
Defined.

End DebounceFacts.

(** ** Reactive form field *)

Module FormFieldFacts.
Import Runtime FormField.

Section WithValue.
Context {T : Type} `{EqDecision T}.

Lemma run_validators_omap (vs : list (T -> option string)) (val : T)
    (errs : list string) :
  run_validators vs val errs = errs ++ omap (message val) vs.
Proof.
  revert errs. induction vs as [|validator rest IH]; intros errs; cbn.
  - rewrite app_nil_r. reflexivity.
  - rewrite IH. unfold message.
    destruct (validator val) as [error|]; [|reflexivity].
    case_bool_decide; [reflexivity|]. rewrite <- app_assoc. reflexivity.
Qed.

Lemma message_None (val : T) (validator : T -> option string) :
  message val validator = None <-> passes val validator.
Proof.
  unfold message, passes. destruct (validator val) as [error|].
  - case_bool_decide as He; split.
    + intros _. right. congruence.
    + reflexivity.
    + discriminate.
    + intros [Hn | Hs]; [discriminate | congruence].
  - split; auto.
Qed.

Lemma omap_nil_Forall (val : T) (vs : list (T -> option string)) :
  omap (message val) vs = [] <-> Forall (passes val) vs.
Proof.
  induction vs as [|validator rest IH]; cbn.
  - split; [constructor | reflexivity].
  - destruct (message val validator) eqn:Hm.
    + split; [discriminate|]. intros Hall. apply Forall_cons in Hall as [Hp _].
      apply message_None in Hp. congruence.
    + rewrite IH. split.
      * intros Hall. apply Forall_cons. split; [apply message_None, Hm | exact Hall].
      * intros Hall. apply Forall_cons in Hall. tauto.
Qed.

Lemma apply_call_dirty (c : call T) (f : FormField T) :
  (dirty f = true -> dirty (apply_call f c) = true)
  /\ (dirty_sound f -> dirty_sound (apply_call f c))
  /\ initialValue (apply_call f c) = initialValue f.
Proof.
  unfold dirty_sound. destruct c as [v | b |]; cbn [apply_call].
  - unfold value_set, signal_set. case_bool_decide as Heq; cbn.
    + rewrite orb_false_r. auto.
    + rewrite orb_true_r. split; [auto|]. split; [discriminate | reflexivity].
  - cbn. auto.
  - unfold run_effect. destruct (effect_pending f) eqn:Hp; cbn; [|auto].
    case_bool_decide as Heq; [|auto].
    split; [auto|]. split; [|reflexivity]. intros _ _ Hne. contradiction.
Qed.

Lemma apply_calls_dirty (cs : list (call T)) (f : FormField T) :
  (dirty f = true -> dirty (apply_calls cs f) = true)
  /\ (dirty_sound f -> dirty_sound (apply_calls cs f)).
Proof.
  revert f. induction cs as [|c cs IH]; intros f; [auto|].
  unfold apply_calls in *. cbn [fold_left].
  destruct (apply_call_dirty c f) as (H1 & H2 & _).
  destruct (IH (apply_call f c)) as (H3 & H4). auto.
Qed.

End WithValue.

(** X23.  A field is valid exactly when every validator returns [null]
    or the empty string for the current value, and [errors()] holds the
    non-empty messages of the validators, in the order of the
    validators. *)
Theorem valid_iff_all_pass (T : Type) (f : FormField T) :
  errors f = omap (message (value f)) (validators f)
  /\ (valid f = true <-> Forall (passes (value f)) (validators f)).
Proof.
  assert (Herr : errors f = omap (message (value f)) (validators f))
    by (unfold errors; rewrite run_validators_omap; reflexivity).
  split; [exact Herr|].
  unfold valid. rewrite Nat.eqb_eq, Herr, <- omap_nil_Forall.
  split; [apply nil_length_inv | intros ->; reflexivity].
Qed.

Lemma valid_iff_all_pass_witness :
  let f := value_set "secret"%string passwordField in
  errors f = ["Minimum length is 8"%string]
  /\ valid f = false
  /\ ~ Forall (passes (value f)) (validators f).
Proof.
  cbv zeta.
  destruct (valid_iff_all_pass string (value_set "secret"%string passwordField))
    as [Herr Hvalid].
  split; [rewrite Herr; vm_compute; reflexivity|]. split; [reflexivity|].
  intros Hall. apply Hvalid in Hall. discriminate.
Defined.

(** X24.  The dirty flag is a latch driven by the effect: after any
    sequence of value writes, touches and effect runs, a field whose
    effect has run and whose value is not the initial one is dirty, and
    a dirty field stays dirty whatever follows, also when the value
    returns to the initial one. *)
Theorem dirty_is_a_latch (T : Type) (EqT : EqDecision T) (initialValue : T)
    (validators : list (T -> option string)) (cs cs' : list (call T)) :
  let f := apply_calls cs (createFormField initialValue validators) in
  (effect_pending f = false -> value f <> initialValue -> dirty f = true)
  /\ (dirty f = true -> dirty (apply_calls cs' f) = true).
Proof.
  cbv zeta. split.
  - assert (Hinit : forall g : FormField T,
               FormField.initialValue (apply_calls cs g) = FormField.initialValue g).
    { clear. induction cs as [|c cs IH]; intros g; [reflexivity|].
      unfold apply_calls in *. cbn [fold_left]. rewrite IH.
      apply apply_call_dirty. }
    destruct (apply_calls_dirty cs (createFormField initialValue validators))
      as [_ Hsound].
    intros Hp Hne. apply Hsound; [intros Hf; discriminate | exact Hp |].
    rewrite Hinit. exact Hne.
  - apply apply_calls_dirty.
Qed.

Lemma dirty_is_a_latch_witness :
  let f := apply_calls [EffectRun; ValueSet "a"%string; EffectRun] passwordField in
  effect_pending f = false /\ value f <> ""%string /\ dirty f = true
  /\ dirty (apply_calls [ValueSet ""%string; EffectRun] f) = true
  /\ value (apply_calls [ValueSet ""%string; EffectRun] f) = ""%string.
Proof.
  cbv zeta.
  destruct (dirty_is_a_latch string _ ""%string
              [requiredValidator; minLengthValidator 8]
              [EffectRun; ValueSet "a"%string; EffectRun]
              [ValueSet ""%string; EffectRun]) as [Hsound Hlatch].
  split; [reflexivity|]. split; [discriminate|].
  assert (Hd : dirty (apply_calls [EffectRun; ValueSet "a"%string; EffectRun]
                        passwordField) = true)
    by (apply Hsound; [reflexivity | discriminate]).
  split; [exact Hd|]. split; [apply Hlatch, Hd | reflexivity].
Defined.

(** X25.  A text field with the required validator and a minimum length
    is valid exactly when its value is non-empty and at least that
    long; the password field of the demonstration is valid from eight
    characters on. *)
Theorem required_min_length_valid (min : Z) (initial v : string) :
  let f := value_set v (createFormField initial
                          [requiredValidator; minLengthValidator min]) in
  (valid f = true <-> v <> ""%string /\ min <= Z.of_nat (String.length v))
  /\ (valid (value_set v passwordField) = true <-> (8 <= String.length v)%nat).
Proof.
  assert (Hgen : forall (m : Z) (i : string),
             valid (value_set v (createFormField i
                       [requiredValidator; minLengthValidator m])) = true
             <-> v <> ""%string /\ m <= Z.of_nat (String.length v)).
  { intros m i.
    assert (Hval : value (value_set v (createFormField i
                            [requiredValidator; minLengthValidator m])) = v).
    { unfold value_set, signal_set. case_bool_decide as Heq; cbn in Heq |- *; congruence. }
    assert (Hvs : validators (value_set v (createFormField i
                            [requiredValidator; minLengthValidator m]))
                  = [requiredValidator; minLengthValidator m]).
    { unfold value_set, signal_set. case_bool_decide; reflexivity. }
    unfold valid, errors. rewrite Hval, Hvs. cbn [run_validators].
    unfold requiredValidator, minLengthValidator.
    case_bool_decide as Hempty; destruct (Z.leb_spec m (Z.of_nat (String.length v)));
      cbn; split; try discriminate; try tauto; try (intros [_ ?]; lia); auto. }
  cbv zeta. split; [apply Hgen|].
  unfold passwordField. rewrite Hgen. split.
  - intros [_ Hlen]. lia.
  - intros Hlen. split; [|lia]. intros ->. cbn in Hlen. lia.
Qed.

Lemma required_min_length_valid_witness :
  errors passwordField = ["This field is required"; "Minimum length is 8"]%string
  /\ valid (value_set "hunter22" passwordField) = true
  /\ valid (value_set "hunter2" passwordField) = false.
Proof.
  destruct (required_min_length_valid 8 "" "hunter22") as [_ [_ Hok]].
  destruct (required_min_length_valid 8 "" "hunter2") as [_ [Hbad _]].
  split; [vm_compute; reflexivity|]. split; [apply Hok; cbn; lia|].
  destruct (valid (value_set "hunter2" passwordField)) eqn:Hv; [|reflexivity].
  specialize (Hbad eq_refl). cbn in Hbad. lia.
Defined.

End FormFieldFacts.

(** ** Debug signal *)

Module DebugSignalFacts.
Import Runtime DebugSignal.

Lemma apply_call_plain {T : Type} `{EqDecision T} (c : call T) (d : DebugSignal T) :
  sig (apply_call d c) = plain_call (sig d) c
  /\ length (console (apply_call d c)) = (length (console d) + lines c)%nat
  /\ name (apply_call d c) = name d.
Proof.
  destruct c as [| value | fn]; cbn; rewrite ?length_app; cbn; repeat split; lia.
Qed.

(** X27.  The logging proxy does not change what the signal holds: after
    any sequence of reads, [set] and [update] calls the value is that of
    a plain signal after the same calls, and the console has grown by
    one line per read and per [set] and two lines per [update]. *)
Theorem debug_signal_is_transparent (T : Type) (EqT : EqDecision T)
    (name : string) (initialValue : T) (cs : list (call T)) :
  let d := apply_calls cs (createDebugSignal name initialValue) in
  sig d = fold_left plain_call cs initialValue
  /\ length (console d) = list_sum (map lines cs).
Proof.
  cbv zeta.
  assert (Hgen : forall d : DebugSignal T,
             sig (apply_calls cs d) = fold_left plain_call cs (sig d)
             /\ length (console (apply_calls cs d))
                = (length (console d) + list_sum (map lines cs))%nat).
  { induction cs as [|c cs IH]; intros d; [cbn; split; [reflexivity | lia]|].
    unfold apply_calls in *. cbn [fold_left].
    destruct (apply_call_plain c d) as (Hs & Hl & _).
    destruct (IH (apply_call d c)) as [Hs' Hl'].
    rewrite Hs', Hl', Hs, Hl. split; [reflexivity|].
    cbn [map]. unfold list_sum. cbn [fold_right]. lia. }
  destruct (Hgen (createDebugSignal name initialValue)) as [Hs Hl].
  split; [exact Hs | rewrite Hl; cbn; lia].
Qed.

(** The demonstration of the source: a read, [set(5)], then
    [update(n => n + 1)]. *)
Example demonstrateDebugSignal_console :
  console (apply_calls [Read; CallSet 5; CallUpdate (fun n => n + 1)]
             (createDebugSignal "counter" 0))
  = [LogRead 0; LogSet 5; LogUpdateCalled; LogUpdate 5 6].
Proof. reflexivity. Qed.

End DebugSignalFacts.
